(** * nxt-car: serialised motor commands, sensor pollers and the stop queue

    A shallow embedding of [nxt_car.py].  The Python program runs one
    consumer thread per motor ([MotorRunThread], a [Serializer]) that
    executes callables taken from a work queue, sensor threads that call
    [apply] on it, and a stop queue on which a token asks every loop to
    end.

    Layout:
    - [StopQueue]: [check_stop] on a FIFO of Python objects;
    - [Device]: the motor driver interface, the world the callables act
      on, and [motor_start], [motor_stop], [motor_turn];
    - [Sim]: a scripted motor used to run the model on concrete inputs;
    - [Threads]: the interleavings of callers of [apply] with the consumer
      loop, one scheduled thread step at a time;
    - [Shared]: the same with the other loops that poll the stop queue
      and with the changes of sign of the shared power;
    - [Touch], [Ultrasonic]: the two sensor loops;
    - [Scenarios]: the concrete runs the examples are evaluated on.
    The lemmas and theorems follow, module by module. *)

From stdpp Require Import base tactics option list numbers.
From Stdlib Require Import ZArith NArith Lia.

Open Scope Z_scope.

(* ------------------------------------------------------------------ *)
(** ** The stop queue *)

Module StopQueue.

(** What can sit on a [Queue.Queue]: the module-level [_stop_token]
    object, or any other Python object (told apart by [is]). *)
Inductive item : Type :=
| stop_token
| other (v : Z).

Definition is_token (x : item) : bool :=
  match x with
  | stop_token => true
  | other _ => false
  end.

Definition queue : Type := list item.

(** [Queue.put]: append at the back. *)
Definition put (x : item) (q : queue) : queue := q ++ [x].

(** [Queue.get_nowait]: the front item, or [None] for [Queue.Empty]. *)
Definition get_nowait (q : queue) : option (item * queue) :=
  match q with
  | [] => None
  | x :: q' => Some (x, q')
  end.

(** [check_stop(stopQueue)]: returns the boolean and the queue it
    leaves behind. *)
Definition check_stop (stopQueue : queue) : bool * queue :=
  match get_nowait stopQueue with
  | Some (x, q') =>
      if is_token x then (true, put stop_token q') else (false, q')
  | None => (false, stopQueue)
  end.

(** The same call as the two queue operations it is made of, for runs
    in which another thread moves between them: the [get_nowait], and
    what follows it. *)
Definition check_stop_get (q : queue) : option item * queue :=
  match get_nowait q with
  | Some (x, q') => (Some x, q')
  | None => (None, q)
  end.

Definition check_stop_rest (got : option item) (q : queue) : bool * queue :=
  match got with
  | Some x => if is_token x then (true, put stop_token q) else (false, q)
  | None => (false, q)
  end.

(** The queue after [n] successive calls of [check_stop]. *)
Fixpoint polls (n : nat) (q : queue) : queue :=
  match n with
  | O => q
  | S k => polls k (snd (check_stop q))
  end.

(** What the call after [n] earlier ones returns. *)
Definition nth_poll (n : nat) (q : queue) : bool :=
  fst (check_stop (polls n q)).

Definition only_tokens (q : queue) : Prop := Forall (fun x => x = stop_token) q.

End StopQueue.

(* ------------------------------------------------------------------ *)
(** ** The motor, its driver and the three callables *)

Module Device.

(** [motor.get_tacho()] returns an object with three counters. *)
Record Tacho : Type := mkTacho {
  tacho_count : Z;
  block_tacho_count : Z;
  rotation_count : Z
}.

(** A device-level failure raised by the driver. *)
Inductive exn : Type :=
| DeviceError (code : Z).

(** The calls made on the motor, as a recording mock would list them. *)
Inductive DevOp : Type :=
| OpGetTacho
| OpRun (power : Z)
| OpBrake
| OpIdle
| OpTurn (power degrees : Z).

(** The driver ([nxt.motor.Motor]) is not part of the program: each
    call either raises or moves the hardware to a new state;
    [get_tacho] also returns the counters. *)
Class MotorDriver (HW : Type) : Type := {
  drv_get_tacho : HW -> exn + Tacho * HW;
  drv_run : Z -> HW -> exn + HW;
  drv_brake : HW -> exn + HW;
  drv_idle : HW -> exn + HW;
  drv_turn : Z -> Z -> HW -> exn + HW
}.

(** What the callables read and write: the motor object ([brake_flag]
    and the hardware behind it), the class attribute
    [MotorRunThread.power] (a one-element list, here its element 0), and
    the list of driver calls made so far. *)
Record World (HW : Type) : Type := mkWorld {
  brake_flag : bool;
  power0 : Z;
  hw : HW;
  oplog : list DevOp
}.
Arguments mkWorld {HW} _ _ _ _.
Arguments brake_flag {HW} _.
Arguments power0 {HW} _.
Arguments hw {HW} _.
Arguments oplog {HW} _.

(** A call either returns a value or raises, and leaves a world. *)
Inductive Outcome (HW A : Type) : Type :=
| Returned (a : A) (w : World HW)
| Raised (e : exn) (w : World HW).
Arguments Returned {HW A} _ _.
Arguments Raised {HW A} _ _.

Definition Dev (HW A : Type) : Type := World HW -> Outcome HW A.

(** The world a call leaves, however it ended. *)
Definition world_of {HW A : Type} (o : Outcome HW A) : World HW :=
  match o with
  | Returned _ w => w
  | Raised _ w => w
  end.

Definition ret {HW A : Type} (a : A) : Dev HW A := fun w => Returned a w.

Definition bind {HW A B : Type} (m : Dev HW A) (k : A -> Dev HW B) : Dev HW B :=
  fun w =>
    match m w with
    | Returned a w' => k a w'
    | Raised e w' => Raised e w'
    end.

Notation "x <- m ;; k" := (bind m (fun x => k))
  (at level 100, m at next level, right associativity).

(** A work request [(callable, args, kwds)]; the program only ever
    submits these three callables. *)
Inductive Request : Type :=
| Req_start (power : Z)
| Req_stop
| Req_turn (power degrees : Z).

Section Callables.
Context {HW : Type} `{MotorDriver HW}.

Definition log_op (op : DevOp) (w : World HW) : World HW :=
  mkWorld (brake_flag w) (power0 w) (hw w) (oplog w ++ [op]).

Definition set_hw (h : HW) (w : World HW) : World HW :=
  mkWorld (brake_flag w) (power0 w) h (oplog w).

(** A driver call that returns nothing. *)
Definition driver_call (op : DevOp) (f : HW -> exn + HW) : Dev HW unit :=
  fun w =>
    let w1 := log_op op w in
    match f (hw w1) with
    | inl e => Raised e w1
    | inr h => Returned tt (set_hw h w1)
    end.

Definition get_tacho : Dev HW Tacho :=
  fun w =>
    let w1 := log_op OpGetTacho w in
    match drv_get_tacho (hw w1) with
    | inl e => Raised e w1
    | inr (t, h) => Returned t (set_hw h w1)
    end.

(** [nm.Motor.run(motor, power=...)]. *)
Definition Motor_run (power : Z) : Dev HW unit :=
  driver_call (OpRun power) (drv_run power).

Definition brake : Dev HW unit := driver_call OpBrake drv_brake.

Definition idle : Dev HW unit := driver_call OpIdle drv_idle.

Definition turn (power degrees : Z) : Dev HW unit :=
  driver_call (OpTurn power degrees) (drv_turn power degrees).

(** Reading [MotorRunThread.power[0]] and [motor.brake_flag]. *)
Definition read_power : Dev HW Z := fun w => Returned (power0 w) w.

Definition read_brake_flag : Dev HW bool := fun w => Returned (brake_flag w) w.

(** [motor_start(motor, power)]. *)
Definition motor_start (power : Z) : Dev HW Tacho :=
  t <- get_tacho ;;
  p <- read_power ;;
  _ <- Motor_run p ;;
  ret t.

(** [motor_stop(motor)]. *)
Definition motor_stop : Dev HW Tacho :=
  b <- read_brake_flag ;;
  _ <- (if b then brake else idle) ;;
  get_tacho.

(** [motor_turn(motor, power, degrees)]. *)
Definition motor_turn (power degrees : Z) : Dev HW Tacho :=
  _ <- turn power degrees ;;
  get_tacho.

(** [callable( *args, **kwds)]. *)
Definition call (r : Request) : Dev HW Tacho :=
  match r with
  | Req_start p => motor_start p
  | Req_stop => motor_stop
  | Req_turn p d => motor_turn p d
  end.

End Callables.

End Device.

(* ------------------------------------------------------------------ *)
(** ** A scripted motor *)

Module Sim.
Import Device.

(** A motor that moves by [speed] between two driver calls and raises
    on the calls its fault script marks. *)
Record SimHW : Type := mkSim {
  pos : Z;
  speed : Z;
  faults : list bool
}.

Definition sim_error : exn := DeviceError 1.

(** Time passes, then the next entry of the fault script decides. *)
Definition arrive (h : SimHW) : exn + SimHW :=
  let h1 := mkSim (pos h + speed h) (speed h) (tl (faults h)) in
  match faults h with
  | true :: _ => inl sim_error
  | _ => inr h1
  end.

Definition reading (h : SimHW) : Tacho := mkTacho (pos h) (pos h) (pos h).

Definition sim_get_tacho (h : SimHW) : exn + Tacho * SimHW :=
  match arrive h with
  | inl e => inl e
  | inr h1 => inr (reading h1, h1)
  end.

Definition sim_set_speed (v : Z) (h : SimHW) : exn + SimHW :=
  match arrive h with
  | inl e => inl e
  | inr h1 => inr (mkSim (pos h1) v (faults h1))
  end.

Definition sim_turn (power degrees : Z) (h : SimHW) : exn + SimHW :=
  match arrive h with
  | inl e => inl e
  | inr h1 => inr (mkSim (pos h1 + Z.sgn power * degrees) 0 (faults h1))
  end.

#[export] Instance sim_driver : MotorDriver SimHW := {
  drv_get_tacho := sim_get_tacho;
  drv_run := sim_set_speed;
  drv_brake := sim_set_speed 0;
  drv_idle := sim_set_speed 0;
  drv_turn := sim_turn
}.

(** A motor at rest, [power = [100]], no call made yet. *)
Definition world0 (brake : bool) (faults : list bool) : World SimHW :=
  mkWorld brake 100 (mkSim 0 0 faults) [].

End Sim.

(* ------------------------------------------------------------------ *)
(** ** Callers of [apply] and the consumer loop, interleaved *)

Module Threads.
Import Device.

(** Where the consumer thread ([MotorRunThread.run]) stands. *)
Inductive ConsumerPc : Type :=
| AtCheck                 (* about to call [check_stop] *)
| AtGet                   (* about to call [workRequestQueue.get(timeout=reqWait)] *)
| Running (r : Request)   (* fetched [r], about to call it and put its result *)
| Exited                  (* left the loop by [break] *)
| Died (e : exn).         (* an exception left [run] *)

(** Where a thread that calls [apply(callable, *args)] stands.  A
    thread that calls [apply] several times in a row is a row of such
    callers, each scheduled after the one before it has returned. *)
Inductive CallerPc : Type :=
| Calling (r : Request)          (* before [workRequestQueue.put] *)
| Waiting (r : Request)          (* in [resultQueue.get()] *)
| Got (r : Request) (t : Tacho). (* [apply] returned [t] *)

(** What an observer of the run writes down, in order. *)
Inductive Event : Type :=
| EvPut (i : nat) (r : Request)
| EvBegin (r : Request)
| EvEnd (r : Request) (t : Tacho)
| EvRaise (r : Request) (e : exn)
| EvGot (i : nat) (t : Tacho).

Inductive Tid : Type :=
| TConsumer
| TCaller (i : nat)
| TStop.                  (* some thread puts [_stop_token] on the stop queue *)

Section System.
Context {HW : Type} `{MotorDriver HW}.

Record State : Type := mkState {
  world : World HW;
  stopQueue : StopQueue.queue;
  workRequestQueue : list Request;
  resultQueue : list Tacho;
  consumer : ConsumerPc;
  callers : list CallerPc;
  history : list Event
}.

(** One step of the consumer thread. *)
Definition consumer_step (s : State) : State :=
  match consumer s with
  | AtCheck =>
      let (stop, q) := StopQueue.check_stop (stopQueue s) in
      mkState (world s) q (workRequestQueue s) (resultQueue s)
              (if stop then Exited else AtGet) (callers s) (history s)
  | AtGet =>
      match workRequestQueue s with
      | r :: rest =>
          mkState (world s) (stopQueue s) rest (resultQueue s)
                  (Running r) (callers s) (history s ++ [EvBegin r])
      | [] =>
          (* [Queue.Empty] after the timeout: [continue] *)
          mkState (world s) (stopQueue s) [] (resultQueue s)
                  AtCheck (callers s) (history s)
      end
  | Running r =>
      match call r (world s) with
      | Returned t w =>
          mkState w (stopQueue s) (workRequestQueue s) (resultQueue s ++ [t])
                  AtCheck (callers s) (history s ++ [EvEnd r t])
      | Raised e w =>
          mkState w (stopQueue s) (workRequestQueue s) (resultQueue s)
                  (Died e) (callers s) (history s ++ [EvRaise r e])
      end
  | Exited => s
  | Died _ => s
  end.

(** One step of caller [i] inside [apply]: the put, then the blocking
    get on the shared result queue. *)
Definition caller_step (i : nat) (s : State) : State :=
  match callers s !! i with
  | Some (Calling r) =>
      mkState (world s) (stopQueue s) (workRequestQueue s ++ [r]) (resultQueue s)
              (consumer s) (<[i := Waiting r]> (callers s))
              (history s ++ [EvPut i r])
  | Some (Waiting r) =>
      match resultQueue s with
      | t :: rest =>
          mkState (world s) (stopQueue s) (workRequestQueue s) rest
                  (consumer s) (<[i := Got r t]> (callers s))
                  (history s ++ [EvGot i t])
      | [] => s
      end
  | Some (Got _ _) => s
  | None => s
  end.

Definition stop_step (s : State) : State :=
  mkState (world s) (StopQueue.put StopQueue.stop_token (stopQueue s))
          (workRequestQueue s) (resultQueue s) (consumer s) (callers s)
          (history s).

Definition step (t : Tid) (s : State) : State :=
  match t with
  | TConsumer => consumer_step s
  | TCaller i => caller_step i s
  | TStop => stop_step s
  end.

(** A schedule names the thread that moves next; a thread that cannot
    move (blocked, finished) leaves the state as it is. *)
Definition run_sched (sched : list Tid) (s : State) : State :=
  fold_left (fun st t => step t st) sched s.

(** All threads started, nothing queued: caller [i] is about to apply
    [rs !! i]. *)
Definition init (w : World HW) (sq : StopQueue.queue) (rs : list Request) : State :=
  mkState w sq [] [] AtCheck (map Calling rs) [].

End System.

Arguments State HW : clear implicits.

(** The requests in the order they were put, and in the order their
    execution began. *)
Definition puts (h : list Event) : list Request :=
  omap (fun ev => match ev with EvPut _ r => Some r | _ => None end) h.

Definition begun (h : list Event) : list Request :=
  omap (fun ev => match ev with EvBegin r => Some r | _ => None end) h.

(** The consumer as seen from the history: idle, inside the execution
    of one request, or stopped by an exception. *)
Inductive Phase : Type :=
| Idle
| Busy (r : Request)
| Halted.

Definition request_eqb (a b : Request) : bool :=
  match a, b with
  | Req_start p, Req_start q => Z.eqb p q
  | Req_stop, Req_stop => true
  | Req_turn p d, Req_turn q e => Z.eqb p q && Z.eqb d e
  | _, _ => false
  end.

(** [None] when an execution begins while another one is open, or ends
    without being the open one. *)
Definition track (ph : option Phase) (ev : Event) : option Phase :=
  match ph, ev with
  | None, _ => None
  | Some Idle, EvBegin r => Some (Busy r)
  | Some _, EvBegin _ => None
  | Some (Busy r), EvEnd r' _ => if request_eqb r r' then Some Idle else None
  | Some _, EvEnd _ _ => None
  | Some (Busy r), EvRaise r' _ => if request_eqb r r' then Some Halted else None
  | Some _, EvRaise _ _ => None
  | Some p, EvPut _ _ => Some p
  | Some p, EvGot _ _ => Some p
  end.

Definition phase_after (h : list Event) : option Phase :=
  fold_left track h (Some Idle).

(** No two executions overlap. *)
Definition no_overlap (h : list Event) : bool :=
  match phase_after h with
  | Some _ => true
  | None => false
  end.

Definition phase_of (pc : ConsumerPc) : Phase :=
  match pc with
  | Running r => Busy r
  | Died _ => Halted
  | AtCheck | AtGet | Exited => Idle
  end.

Definition returned (c : option CallerPc) : bool :=
  match c with
  | Some (Got _ _) => true
  | _ => false
  end.

Section Invariants.
Context {HW : Type}.

(** The history agrees with the consumer's position, and the requests
    put so far are those whose execution began followed by those still
    queued. *)
Definition consistent (s : State HW) : Prop :=
  phase_after (history s) = Some (phase_of (consumer s)) /\
  puts (history s) = begun (history s) ++ workRequestQueue s.

(** The consumer has left its loop, by [break] or by an exception. *)
Definition gone (s : State HW) : Prop :=
  consumer s = Exited \/ exists e, consumer s = Died e.

(** What a state can still become once the consumer is gone. *)
Definition frozen (s s' : State HW) : Prop :=
  consumer s' = consumer s /\
  world s' = world s /\
  begun (history s') = begun (history s) /\
  (exists k, workRequestQueue s' = workRequestQueue s ++ k) /\
  (exists k, resultQueue s = k ++ resultQueue s').

End Invariants.

End Threads.

(* ------------------------------------------------------------------ *)
(** ** The touch-sensor loop *)

Module Touch.
Import Device.

(** What [MotorTouchThread.run] reads and writes: the readings the
    sensor will give to the successive calls of [is_pressed], the stop
    queue, [motor.power[0]], and the requests handed to [motor.apply],
    oldest first. *)
Record World : Type := mkWorld {
  readings : list bool;
  stopQueue : StopQueue.queue;
  power0 : Z;
  applied : list Request
}.

(** [self.is_pressed()]; [None] when the script has no reading left. *)
Definition is_pressed (w : World) : option (bool * World) :=
  match readings w with
  | [] => None
  | b :: rest => Some (b, mkWorld rest (stopQueue w) (power0 w) (applied w))
  end.

(** [self.motor.apply(callable, ...)]: the poller hands the request
    over and goes on when the result is back; it only logs the result. *)
Definition apply (r : Request) (w : World) : World :=
  mkWorld (readings w) (stopQueue w) (power0 w) (applied w ++ [r]).

Definition check_stop (w : World) : bool * World :=
  let (stop, q) := StopQueue.check_stop (stopQueue w) in
  (stop, mkWorld (readings w) q (power0 w) (applied w)).

(** The [while 1] loop, at most [fuel] iterations.  [and] evaluates
    [self.is_pressed()] only when its left operand is true, and the
    [elif] only when the [if] condition was false.  The loop also ends
    when the script runs out of readings. *)
Fixpoint loop (fuel : nat) (button_down : bool) (w : World) : World :=
  match fuel with
  | O => w
  | S fuel' =>
      let (stop, w1) := check_stop w in
      if stop then w1
      else if negb button_down then
        match is_pressed w1 with
        | None => w1
        | Some (true, w2) =>
            loop fuel' true (apply (Req_start (power0 w2)) w2)
        | Some (false, w2) =>
            (* [elif button_down and ...]: false without a reading *)
            loop fuel' button_down w2
        end
      else
        (* [if not button_down and ...]: false without a reading *)
        match is_pressed w1 with
        | None => w1
        | Some (false, w2) => loop fuel' false (apply Req_stop w2)
        | Some (true, w2) => loop fuel' button_down w2
        end
  end.

(** [MotorTouchThread.run]: [button_down = self.is_pressed()], then the
    loop. *)
Definition run (fuel : nat) (w : World) : World :=
  match is_pressed w with
  | None => w
  | Some (button_down, w1) => loop fuel button_down w1
  end.

(** The request each change of the sensor state asks for, given the
    last state seen: [Req_start] when it becomes pressed, [Req_stop]
    when it is released, nothing otherwise. *)
Fixpoint edges (p : Z) (last : bool) (rs : list bool) : list Request :=
  match rs with
  | [] => []
  | b :: rest =>
      if Bool.eqb last b then edges p last rest
      else (if b then Req_start p else Req_stop) :: edges p b rest
  end.

End Touch.

(* ------------------------------------------------------------------ *)
(** ** The ultrasonic loop *)

Module Ultrasonic.
Import Device.

(** Times are in milliseconds. *)
Definition min_distance : Z := 20.

Definition reverse_timout : N := 2000.

Definition usb_sleep_multiplier : N := 200.

(** What an observer of the loop writes down. *)
Inductive Ev : Type :=
| Slept (ms : N)
| Measured (at_ms : N) (dist : Z)
| Applied (r : Request).

(** What [UltrasonicThread.run] reads and writes: the clock, the stop
    queue, [self.powerList[0]] and the observer's notes. *)
Record World : Type := mkWorld {
  clock : N;
  stopQueue : StopQueue.queue;
  powerList0 : Z;
  trace : list Ev
}.

(** [time.sleep]. *)
Definition sleep (ms : N) (w : World) : World :=
  mkWorld (clock w + ms)%N (stopQueue w) (powerList0 w) (trace w ++ [Slept ms]).

(** [random.random() * _usb_sleep_multiplier], for a sample given in
    thousandths. *)
Definition jitter (sample : N) : N := (sample * usb_sleep_multiplier / 1000)%N.

Definition check_stop (w : World) : bool * World :=
  let (stop, q) := StopQueue.check_stop (stopQueue w) in
  (stop, mkWorld (clock w) q (powerList0 w) (trace w)).

(** [self.powerList[0] *= -1]. *)
Definition flip (w : World) : World :=
  mkWorld (clock w) (stopQueue w) (powerList0 w * -1) (trace w).

(** [self.motor.apply(...)]: returns after [latency] milliseconds. *)
Definition apply (r : Request) (latency : N) (w : World) : World :=
  mkWorld (clock w + latency)%N (stopQueue w) (powerList0 w) (trace w ++ [Applied r]).

Section Loop.
(** The distance the sensor reports at each instant. *)
Variable sensor : N -> Z.

(** [self.get_distance()]. *)
Definition get_distance (w : World) : Z * World :=
  let d := sensor (clock w) in
  (d, mkWorld (clock w) (stopQueue w) (powerList0 w)
              (trace w ++ [Measured (clock w) d])).

(** The [while 1] loop, one iteration for each entry of the oracle: the
    random sample of the iteration and the time [apply] would take. *)
Fixpoint loop (oracle : list (N * N)) (w : World) : World :=
  match oracle with
  | [] => w
  | (sample, latency) :: rest =>
      let w1 := sleep (jitter sample) w in
      let (stop, w2) := check_stop w1 in
      if stop then w2
      else
        let (d, w3) := get_distance w2 in
        if d <? min_distance then
          let w4 := flip w3 in
          let w5 := apply (Req_turn (powerList0 w4) 180) latency w4 in
          loop rest (sleep reverse_timout w5)
        else loop rest w3
  end.

(** The sensor reports less than [min_distance] only at instants of
    the interval that starts at [s] and lasts [len] milliseconds. *)
Definition near_only_within (s len : N) : Prop :=
  forall t : N, sensor t < min_distance -> (s <= t < s + len)%N.

End Loop.

Definition is_turn (ev : Ev) : bool :=
  match ev with
  | Applied (Req_turn _ _) => true
  | _ => false
  end.

Definition is_alarm (ev : Ev) : bool :=
  match ev with
  | Measured _ d => d <? min_distance
  | _ => false
  end.

(** The reversal commands, and the measurements below [min_distance]. *)
Definition reversals (tr : list Ev) : list Ev := List.filter is_turn tr.

Definition alarms (tr : list Ev) : list Ev := List.filter is_alarm tr.

End Ultrasonic.

(* ------------------------------------------------------------------ *)
(** ** The loops that only watch queues *)

Module SensorBase.
Import StopQueue.

(** The number of tokens on a queue. *)
Definition tokens (q : queue) : nat := length (List.filter is_token q).

(** [SensorThreadBase.run]: sleep, [check_stop], [break] on [True].
    At most [fuel] iterations; the boolean tells whether the loop ended
    by [break]. *)
Fixpoint run (fuel : nat) (q : queue) : bool * queue :=
  match fuel with
  | O => (false, q)
  | S fuel' =>
      let (stop, q') := check_stop q in
      if stop then (true, q') else run fuel' q'
  end.

End SensorBase.

Module ResultChecker.
Import StopQueue.

Section Results.
(** What sits on the result queue. *)
Variable A : Type.

(** What [ResultQueueChecker.run] reads and writes: the stop queue, the
    result queue it keeps tidy, and the results it has logged. *)
Record World : Type := mkWorld {
  stopQueue : queue;
  resQueue : list A;
  fetched : list A
}.

(** [self.resQueue.get(timeout=reqWait)] and the log line; on
    [Queue.Empty] the iteration is over. *)
Definition fetch (w : World) : World :=
  match resQueue w with
  | [] => w
  | r :: rest => mkWorld (stopQueue w) rest (fetched w ++ [r])
  end.

(** The [while 1] loop, at most [fuel] iterations; the stop test is
    written out in the method as it is in [check_stop]. *)
Fixpoint run (fuel : nat) (w : World) : bool * World :=
  match fuel with
  | O => (false, w)
  | S fuel' =>
      match get_nowait (stopQueue w) with
      | Some (x, q') =>
          if is_token x
          then (true, mkWorld (put stop_token q') (resQueue w) (fetched w))
          else run fuel' (fetch (mkWorld q' (resQueue w) (fetched w)))
      | None => run fuel' (fetch w)
      end
  end.

End Results.

Arguments mkWorld {A} _ _ _.
Arguments stopQueue {A} _.
Arguments resQueue {A} _.
Arguments fetched {A} _.
Arguments fetch {A} _.
Arguments run {A} _ _.

End ResultChecker.

(* ------------------------------------------------------------------ *)
(** ** Readings of a run *)

Module Readings.
Import Device Threads.

(** The readings the consumer put on the result queue, and those the
    callers took from it, in order. *)
Definition ends (h : list Event) : list Tacho :=
  omap (fun ev => match ev with EvEnd _ t => Some t | _ => None end) h.

Definition gots (h : list Event) : list Tacho :=
  omap (fun ev => match ev with EvGot _ t => Some t | _ => None end) h.

(** How the executions ended, in order. *)
Definition outcomes (h : list Event) : list Event :=
  List.filter (fun ev => match ev with EvEnd _ _ | EvRaise _ _ => true | _ => false end) h.

Definition alive (pc : ConsumerPc) : bool :=
  match pc with
  | Died _ => false
  | _ => true
  end.

Definition idle (pc : ConsumerPc) : Prop :=
  pc = AtCheck \/ pc = AtGet \/ pc = Exited.

(** The consumer's steps still needed to leave the loop once every
    [check_stop] returns [True]. *)
Definition steps_left (pc : ConsumerPc) : nat :=
  match pc with
  | AtCheck => 1
  | AtGet => 3
  | Running _ => 2
  | Exited => 0
  | Died _ => 0
  end.

Section Replay.
Context {HW : Type} `{MotorDriver HW}.

(** The requests whose execution is over. *)
Definition finished (s : State HW) : list Request :=
  match consumer s with
  | Running _ => removelast (begun (history s))
  | _ => begun (history s)
  end.


End Replay.

End Readings.

(* ------------------------------------------------------------------ *)
(** ** The other threads that share the stop queue and the power *)

Module Shared.
Import Device Threads Readings.

(** Where another loop that polls the stop queue stands: outside
    [check_stop], between its [get_nowait] and what follows it, or out
    of its loop after the [break]. *)
Inductive PollerPc : Type :=
| Polling
| Holding (got : option StopQueue.item)
| Left.

(** The threads of [Threads], a thread that does
    [self.powerList[0] *= -1] on the list [MotorRunThread.power], and
    the two halves of [check_stop] in loop [i].  A call reads the power
    at most once, so a change of sign that falls inside a call acts as
    one just before or just after it. *)
Inductive XTid : Type :=
| Base (t : Tid)
| Flip
| PollGet (i : nat)
| PollRest (i : nat).

Section System.
Context {HW : Type} `{MotorDriver HW}.

Record XState : Type := mkX {
  base : State HW;
  pollers : list PollerPc
}.

Definition with_power (p : Z) (w : World HW) : World HW :=
  mkWorld (brake_flag w) p (hw w) (oplog w).

Definition set_world (w : World HW) (s : State HW) : State HW :=
  mkState w (stopQueue s) (workRequestQueue s) (resultQueue s)
          (consumer s) (callers s) (history s).

Definition set_stopQueue (q : StopQueue.queue) (s : State HW) : State HW :=
  mkState (world s) q (workRequestQueue s) (resultQueue s)
          (consumer s) (callers s) (history s).

Definition xstep (t : XTid) (x : XState) : XState :=
  match t with
  | Base t' => mkX (step t' (base x)) (pollers x)
  | Flip =>
      mkX (set_world (with_power (power0 (world (base x)) * -1) (world (base x)))
                     (base x))
          (pollers x)
  | PollGet i =>
      match pollers x !! i with
      | Some Polling =>
          let (got, q) := StopQueue.check_stop_get (stopQueue (base x)) in
          mkX (set_stopQueue q (base x)) (<[i := Holding got]> (pollers x))
      | _ => x
      end
  | PollRest i =>
      match pollers x !! i with
      | Some (Holding got) =>
          let (stop, q) := StopQueue.check_stop_rest got (stopQueue (base x)) in
          mkX (set_stopQueue q (base x))
              (<[i := if stop then Left else Polling]> (pollers x))
      | _ => x
      end
  end.

Definition xrun (sched : list XTid) (x : XState) : XState :=
  fold_left (fun st t => xstep t st) sched x.

(** The threads of [init] and [m] loops polling the stop queue. *)
Definition xinit (w : World HW) (sq : StopQueue.queue) (rs : list Request) (m : nat)
  : XState :=
  mkX (init w sq rs) (replicate m Polling).

(** The requests called one after the other by a single thread, each
    with [MotorRunThread.power[0]] set to the value given with it: how
    each call ended, the world left, and whether all of them returned.
    The first call that raises ends the row. *)
Fixpoint replay (w : World HW) (rs : list (Z * Request))
  : list Event * World HW * bool :=
  match rs with
  | [] => ([], w, true)
  | (p, r) :: rest =>
      match call r (with_power p w) with
      | Returned t w' =>
          let '(evs, w'', ok) := replay w' rest in
          (EvEnd r t :: evs, w'', ok)
      | Raised e w' => ([EvRaise r e], w', false)
      end
  end.

(** The history and the world are those of calling the finished
    requests one after the other from world [w], at powers that differ
    from that of [w] by the sign at most. *)
Definition replayed (w : World HW) (s : State HW) : Prop :=
  exists (done : list (Z * Request)) (wr : World HW),
    begun (history s)
    = map snd done ++ match consumer s with Running r => [r] | _ => [] end /\
    Forall (fun pr => Z.abs (fst pr) = Z.abs (power0 w)) done /\
    Z.abs (power0 (world s)) = Z.abs (power0 w) /\
    replay w done = (outcomes (history s), wr, alive (consumer s)) /\
    world s = with_power (power0 (world s)) wr.

End System.

Arguments XState HW : clear implicits.

Definition consumer_turns (sched : list XTid) : nat :=
  length (List.filter
            (fun t => match t with Base TConsumer => true | _ => false end) sched).

(** The stop checks other loops begin during a schedule. *)
Definition polls_begun (sched : list XTid) : nat :=
  length (List.filter
            (fun t => match t with PollGet _ => true | _ => false end) sched).

End Shared.

(* ------------------------------------------------------------------ *)
(** ** Shapes of what the sensor loops ask for *)

Module Shapes.
Import Device.

(** Starts and stops taking turns, beginning with a start when
    [expect_start]; a turn request never fits. *)
Fixpoint alternates (expect_start : bool) (l : list Request) : bool :=
  match l with
  | [] => true
  | Req_start _ :: rest => expect_start && alternates false rest
  | Req_stop :: rest => negb expect_start && alternates true rest
  | Req_turn _ _ :: _ => false
  end.

(** [n] reversals from power [p]: turns of 180 degrees at [-p], [p],
    [-p], ... *)
Fixpoint flips (p : Z) (n : nat) : list Request :=
  match n with
  | O => []
  | S k => Req_turn (p * -1) 180 :: flips (p * -1) k
  end.

Definition applied_requests (tr : list Ultrasonic.Ev) : list Request :=
  omap (fun ev => match ev with Ultrasonic.Applied r => Some r | _ => None end) tr.

(** The instants of the measurements below [min_distance]. *)
Definition alarm_times (tr : list Ultrasonic.Ev) : list N :=
  omap (fun ev => match ev with
                  | Ultrasonic.Measured t d =>
                      if d <? Ultrasonic.min_distance then Some t else None
                  | _ => None
                  end) tr.

(** Successive instants are at least [gap] apart. *)
Fixpoint spaced (gap : N) (ts : list N) : Prop :=
  match ts with
  | [] => True
  | t1 :: rest =>
      match rest with
      | [] => True
      | t2 :: _ => (t1 + gap <= t2)%N
      end /\ spaced gap rest
  end.

End Shapes.

(* ------------------------------------------------------------------ *)
(** ** Concrete runs *)

Module Scenarios.
Import Device Sim Threads.

(** Two threads about to call [apply] on the same motor: thread 0 with
    [motor_start], thread 1 with [motor_stop]. *)
Definition two_callers : State SimHW :=
  init (world0 false []) [] [Req_start 100; Req_stop].

(** Both put their request; the consumer runs the first one; thread 1
    is the first to come back to the result queue. *)
Definition swap_schedule : list Tid :=
  [TCaller 0%nat; TCaller 1%nat; TConsumer; TConsumer; TConsumer;
   TCaller 1%nat; TConsumer; TConsumer; TConsumer; TCaller 0%nat].

(** Both requests are queued and the consumer has fetched the first
    one; the motor will raise on its second driver call. *)
Definition faulty_start : State SimHW :=
  run_sched [TCaller 0%nat; TCaller 1%nat; TConsumer; TConsumer]
    (init (world0 false [false; true]) [] [Req_start 100; Req_stop]).

(** The token has been put on the stop queue and the consumer has seen
    it; thread 0 is about to call [apply]. *)
Definition after_shutdown : State SimHW :=
  run_sched [TStop; TConsumer] (init (world0 false []) [] [Req_stop]).

(** A wall closer than [min_distance] during the first [ms]
    milliseconds. *)
Definition wall_for (ms : N) : N -> Z :=
  fun t => if (t <? ms)%N then 10 else 50.

End Scenarios.

(* ------------------------------------------------------------------ *)
(** ** Facts about the stop queue *)

Module StopQueueFacts.
Import StopQueue.

Lemma polls_add (n m : nat) (q : queue) :
  polls (n + m) q = polls m (polls n q).
Proof.
  revert q; induction n as [|n IH]; intros q; simpl; [reflexivity|].
  apply IH.
Qed.

Lemma only_tokens_rotate (q : queue) :
  only_tokens q -> q ++ [stop_token] = stop_token :: q.
Proof.
  induction 1 as [|x q Hx _ IH]; simpl; [reflexivity|].
  subst x. now rewrite IH.
Qed.

Lemma check_stop_only_tokens (q : queue) :
  only_tokens q -> q <> [] -> check_stop q = (true, q).
Proof.
  intros Hq Hne. destruct q as [|x q]; [congruence|].
  inversion Hq as [|? ? Hx Hq']; subst.
  unfold check_stop, put; simpl. now rewrite only_tokens_rotate.
Qed.

Lemma polls_only_tokens (n : nat) (q : queue) :
  only_tokens q -> polls n q = q.
Proof.
  intros Hq. induction n as [|n IH]; simpl; [reflexivity|].
  destruct q as [|x q]; [exact IH|].
  rewrite check_stop_only_tokens by (done || congruence). exact IH.
Qed.

(** The front part [a] has not been looked at yet, the back part [b]
    holds tokens that were put back: [length a] calls leave tokens only. *)
Lemma polls_split (a b : queue) :
  only_tokens b -> only_tokens (polls (length a) (a ++ b)).
Proof.
  revert b; induction a as [|x a IH]; intros b Hb; simpl; [exact Hb|].
  destruct x; unfold check_stop, put; simpl.
  - rewrite <- app_assoc. apply IH.
    apply Forall_app; split; [exact Hb | repeat constructor].
  - apply IH, Hb.
Qed.

Lemma polls_drain (n : nat) (q : queue) :
  (length q <= n)%nat -> only_tokens (polls n q).
Proof.
  intros Hn.
  replace n with (length q + (n - length q))%nat by lia.
  rewrite polls_add, polls_only_tokens.
  - rewrite <- (app_nil_r q) at 2. apply polls_split. constructor.
  - rewrite <- (app_nil_r q) at 2. apply polls_split. constructor.
Qed.

Lemma check_stop_keeps_token (q : queue) :
  stop_token ∈ q -> stop_token ∈ snd (check_stop q).
Proof.
  destruct q as [|x q]; [easy|].
  destruct x; unfold check_stop, put; simpl; intros H.
  - apply elem_of_app; right; constructor.
  - inversion H; subst; assumption.
Qed.

Lemma polls_keeps_token (n : nat) (q : queue) :
  stop_token ∈ q -> stop_token ∈ polls n q.
Proof.
  revert q; induction n as [|n IH]; intros q Hq; simpl; [exact Hq|].
  apply IH, check_stop_keeps_token, Hq.
Qed.

End StopQueueFacts.

(* ------------------------------------------------------------------ *)
(** ** Claims about [check_stop] *)

Module StopQueueClaims.
Import StopQueue StopQueueFacts.

Lemma check_stop_two_steps (q : queue) :
  check_stop q = (let (got, q1) := check_stop_get q in check_stop_rest got q1).
Proof. now destruct q. Qed.

Lemma check_stop_true_of_tokens (q : queue) :
  only_tokens q -> stop_token ∈ q -> check_stop q = (true, q).
Proof.
  intros Hq Hin. apply check_stop_only_tokens; [exact Hq|].
  intros ->. inversion Hin.
Qed.

(** C4, as stated, fails.  First, the token has been put on a queue
    that held another object, and the next call of [check_stop] returns
    [False].  Second, the queue holds the token and nothing else; loop A
    has taken it with [get_nowait] and not yet put it back when loop B
    calls [check_stop], which finds the queue empty and returns
    [False]. *)
Lemma check_stop_false_after_token :
  check_stop (put stop_token [other 7]) = (false, [stop_token]) /\
  (let (got_a, q1) := check_stop_get [stop_token] in
   let (result_b, q2) := check_stop q1 in
   let (result_a, q3) := check_stop_rest got_a q2 in
   (result_b, result_a, q3)) = (false, true, [stop_token]).
Proof. split; reflexivity. Qed.

(** C4, amended: for calls of [check_stop] made one after the other,
    once the token is on the stop queue it stays on it; each call looks
    at one queued object, so after as many calls as the queue is long
    only tokens are left and every call returns [True] and leaves the
    queue as it is; on a queue that holds nothing but tokens this is so
    from the first call on; and putting the token again keeps the queue
    in that state. *)
Theorem stop_signal_settles (q : queue) :
  stop_token ∈ q ->
  (forall n, stop_token ∈ polls n q) /\
  (forall n, (length q <= n)%nat ->
     check_stop (polls n q) = (true, polls n q)) /\
  (only_tokens q -> forall n, polls n q = q /\ nth_poll n q = true) /\
  stop_token ∈ put stop_token q /\
  (only_tokens q -> only_tokens (put stop_token q)).
Proof.
  intros Hin. split; [|split; [|split; [|split]]].
  - intros n. apply polls_keeps_token, Hin.
  - intros n Hn. apply check_stop_true_of_tokens.
    + apply polls_drain, Hn.
    + apply polls_keeps_token, Hin.
  - intros Hq n. rewrite (polls_only_tokens n q Hq) at 1. split; [reflexivity|].
    unfold nth_poll. rewrite polls_only_tokens by exact Hq.
    now rewrite check_stop_true_of_tokens.
  - unfold put. apply elem_of_app; right; constructor.
  - intros Hq. unfold put. apply Forall_app; split; [exact Hq|].
    repeat constructor.
Qed.

Lemma stop_signal_settles_witness :
  check_stop (polls 2 [other 3; stop_token]) = (true, polls 2 [other 3; stop_token]).
Proof.
  assert (Hin : stop_token ∈ [other 3; stop_token]) by (right; left).
  destruct (stop_signal_settles [other 3; stop_token] Hin) as (_ & Hlate & _).
  apply Hlate. simpl. lia.
Defined.

(** C10: a call of [check_stop] that finds an object other than the
    token at the front of the queue takes it off, does not put it back
    and returns [False]; and whatever the queue holds, after as many
    calls as it is long no such object is left on it. *)
Theorem check_stop_discards_other (v : Z) (q : queue) :
  get_nowait (other v :: q) = Some (other v, q) /\
  check_stop (other v :: q) = (false, q) /\
  forall (q' : queue) (k : nat), only_tokens (polls (length q' + k) q').
Proof.
  split; [reflexivity|]. split; [reflexivity|].
  intros q' k. apply polls_drain. lia.
Qed.

End StopQueueClaims.

(* ------------------------------------------------------------------ *)
(** ** Claims about the callables *)

Module DeviceClaims.
Import Device Sim.

Section AnyDriver.
Context {HW : Type} `{MotorDriver HW}.

Ltac run_call :=
  unfold motor_start, motor_stop, motor_turn, bind, ret, get_tacho, Motor_run,
    brake, idle, turn, driver_call, read_power, read_brake_flag, log_op, set_hw;
  simpl.

(** C6: when [motor_start] returns, its value is the reading the driver
    gave in the state the motor was in before the run call, and the run
    call acts on the state that reading left; when [motor_stop] or
    [motor_turn] returns, its value is the reading the driver gave in
    the state left by the brake, idle or turn call; and each of them
    returns whenever these driver calls do not raise. *)
Theorem telemetry_before_start_after_stop_turn (w : World HW) :
  (forall p t w',
     motor_start p w = Returned t w' <->
     exists h1 h2,
       drv_get_tacho (hw w) = inr (t, h1) /\
       drv_run (power0 w) h1 = inr h2 /\
       w' = mkWorld (brake_flag w) (power0 w) h2
              (oplog w ++ [OpGetTacho; OpRun (power0 w)])) /\
  (forall t w',
     motor_stop w = Returned t w' <->
     exists h1 h2,
       (if brake_flag w then drv_brake else drv_idle) (hw w) = inr h1 /\
       drv_get_tacho h1 = inr (t, h2) /\
       w' = mkWorld (brake_flag w) (power0 w) h2
              (oplog w ++ [if brake_flag w then OpBrake else OpIdle; OpGetTacho])) /\
  (forall p d t w',
     motor_turn p d w = Returned t w' <->
     exists h1 h2,
       drv_turn p d (hw w) = inr h1 /\
       drv_get_tacho h1 = inr (t, h2) /\
       w' = mkWorld (brake_flag w) (power0 w) h2
              (oplog w ++ [OpTurn p d; OpGetTacho])).
Proof.
  destruct w as [bf p0 h ol]; simpl.
  split; [|split].
  - intros p t w'. run_call.
    destruct (drv_get_tacho h) as [e|[t1 h1]] eqn:Ht; simpl.
    + split; [discriminate|]. intros (h1 & h2 & Hg & _); discriminate.
    + destruct (drv_run p0 h1) as [e|h2] eqn:Hr; simpl.
      * split; [discriminate|]. intros (h1' & h2' & Hg & Hr' & _).
        injection Hg as -> ->. congruence.
      * rewrite <- app_assoc. simpl. split.
        -- intros [= <- <-]. exists h1, h2. auto.
        -- intros (h1' & h2' & Hg & Hr' & ->).
           injection Hg as -> ->. congruence.
  - intros t w'. run_call.
    destruct bf; simpl.
    + destruct (drv_brake h) as [e|h1] eqn:Hb; simpl.
      * split; [discriminate|]. intros (h1 & h2 & Hg & _); discriminate.
      * destruct (drv_get_tacho h1) as [e|[t1 h2]] eqn:Ht; simpl.
        -- split; [discriminate|]. intros (h1' & h2' & Hg & Hr' & _).
           injection Hg as ->. congruence.
        -- rewrite <- app_assoc. simpl. split.
           ++ intros [= <- <-]. exists h1, h2. auto.
           ++ intros (h1' & h2' & Hg & Hr' & ->).
              injection Hg as ->. congruence.
    + destruct (drv_idle h) as [e|h1] eqn:Hb; simpl.
      * split; [discriminate|]. intros (h1 & h2 & Hg & _); discriminate.
      * destruct (drv_get_tacho h1) as [e|[t1 h2]] eqn:Ht; simpl.
        -- split; [discriminate|]. intros (h1' & h2' & Hg & Hr' & _).
           injection Hg as ->. congruence.
        -- rewrite <- app_assoc. simpl. split.
           ++ intros [= <- <-]. exists h1, h2. auto.
           ++ intros (h1' & h2' & Hg & Hr' & ->).
              injection Hg as ->. congruence.
  - intros p d t w'. run_call.
    destruct (drv_turn p d h) as [e|h1] eqn:Hb; simpl.
    + split; [discriminate|]. intros (h1 & h2 & Hg & _); discriminate.
    + destruct (drv_get_tacho h1) as [e|[t1 h2]] eqn:Ht; simpl.
      * split; [discriminate|]. intros (h1' & h2' & Hg & Hr' & _).
        injection Hg as ->. congruence.
      * rewrite <- app_assoc. simpl. split.
        -- intros [= <- <-]. exists h1, h2. auto.
        -- intros (h1' & h2' & Hg & Hr' & ->).
           injection Hg as ->. congruence.
Qed.

(** C9, amended: [motor_start] does not use its [power] argument; the
    run call it issues, if it gets that far, is at the value
    [MotorRunThread.power[0]] has at that moment, which is the argument
    only when the two agree. *)
Theorem start_runs_at_shared_power (p : Z) (w : World HW) :
  exists ops,
    oplog (world_of (motor_start p w)) = oplog w ++ ops /\
    (forall q, OpRun q ∈ ops -> q = power0 w) /\
    (forall t w', motor_start p w = Returned t w' ->
                  ops = [OpGetTacho; OpRun (power0 w)]) /\
    motor_start p w = motor_start (power0 w) w.
Proof.
  run_call.
  destruct (drv_get_tacho (hw w)) as [e|[t1 h1]]; simpl.
  - exists [OpGetTacho]. split; [reflexivity|]. split; [|split; [discriminate|reflexivity]].
    intros q Hq. inversion Hq as [|? ? ? Hq']; subst. inversion Hq'.
  - exists [OpGetTacho; OpRun (power0 w)].
    assert (Hops : forall q, OpRun q ∈ [OpGetTacho; OpRun (power0 w)] -> q = power0 w).
    { intros q Hq. inversion Hq as [|? ? ? Hq']; subst.
      inversion Hq' as [|? ? ? Hq'']; subst; [reflexivity|inversion Hq'']. }
    destruct (drv_run (power0 w) h1) as [e|h2]; simpl;
      rewrite <- app_assoc; simpl; auto.
Qed.

End AnyDriver.

(** C9, as stated, fails: [motor_start] called with power 50 while
    [MotorRunThread.power] is [[100]] runs the motor at 100. *)
Lemma start_ignores_power_argument :
  oplog (world_of (motor_start 50 (world0 false []))) = [OpGetTacho; OpRun 100].
Proof. reflexivity. Qed.

End DeviceClaims.

(* ------------------------------------------------------------------ *)
(** ** Claims about the touch-sensor loop *)

Module TouchClaims.
Import Device Touch.

(** With nothing on the stop queue, the loop asks for exactly the
    requests the changes of the sensor state call for. *)
Lemma loop_edges (rs : list bool) :
  forall (k : nat) (b : bool) (p : Z) (acc : list Request),
    loop (length rs + k) b (mkWorld rs [] p acc)
    = mkWorld [] [] p (acc ++ edges p b rs).
Proof.
  induction rs as [|x rs IH]; intros k b p acc.
  - simpl. rewrite app_nil_r. destruct k, b; reflexivity.
  - destruct b, x; simpl; unfold apply; simpl; rewrite IH; try reflexivity;
      now rewrite <- app_assoc.
Qed.

(** C5: on the scripted readings false, false, true, true, false (the
    first one being the initial read) the loop asks the motor for one
    start and then one stop and nothing else, however long it goes on;
    for any script and nothing on the stop queue it asks for one request
    at each change of the sensor state and none otherwise; and when the
    first reading of the loop equals the initial one the first iteration
    asks for nothing. *)
Theorem touch_edge_detection (p : Z) :
  (forall k : nat,
     applied (run (4 + k) (mkWorld [false; false; true; true; false] [] p []))
     = [Req_start p; Req_stop]) /\
  (forall (b : bool) (rs : list bool) (k : nat),
     applied (run (length rs + k) (mkWorld (b :: rs) [] p [])) = edges p b rs) /\
  (forall (b : bool) (rest : list bool) (sq : StopQueue.queue),
     applied (run 1 (mkWorld (b :: b :: rest) sq p [])) = []).
Proof.
  assert (Hrun : forall (b : bool) (rs : list bool) (k : nat),
            applied (run (length rs + k) (mkWorld (b :: rs) [] p [])) = edges p b rs).
  { intros b rs k. unfold run, is_pressed. cbn [readings stopQueue power0 applied].
    now rewrite loop_edges. }
  split; [|split].
  - intros k. exact (Hrun false [false; true; true; false] k).
  - exact Hrun.
  - intros b rest sq. unfold run; simpl. unfold check_stop; simpl.
    destruct (StopQueue.check_stop sq) as [stop q]; simpl.
    destruct stop, b; reflexivity.
Qed.

End TouchClaims.

(* ------------------------------------------------------------------ *)
(** ** Claims about the ultrasonic loop *)

Module UltrasonicClaims.
Import Device Ultrasonic.

Lemma reversals_snoc (tr : list Ev) (ev : Ev) :
  reversals (tr ++ [ev]) = reversals tr ++ (if is_turn ev then [ev] else []).
Proof. unfold reversals. rewrite List.filter_app. simpl. now destruct (is_turn ev). Qed.

Lemma alarms_snoc (tr : list Ev) (ev : Ev) :
  alarms (tr ++ [ev]) = alarms tr ++ (if is_alarm ev then [ev] else []).
Proof. unfold alarms. rewrite List.filter_app. simpl. now destruct (is_alarm ev). Qed.

Ltac one_iteration :=
  unfold sleep, check_stop, get_distance, flip, apply;
  cbn [clock stopQueue powerList0 trace].

Ltac count_events :=
  repeat (rewrite ?reversals_snoc, ?alarms_snoc, ?length_app, ?app_nil_r;
          cbn [is_turn is_alarm length]).

Section Sensor.
Variable sensor : N -> Z.

(** Once the interval is over the loop measures no alarm and asks for
    no reversal. *)
Lemma loop_quiet (s len : N) (oracle : list (N * N)) :
  near_only_within sensor s len ->
  forall w : World,
    (s + len <= clock w)%N ->
    length (reversals (trace (loop sensor oracle w))) = length (reversals (trace w)) /\
    length (alarms (trace (loop sensor oracle w))) = length (alarms (trace w)).
Proof.
  intros Hnear. induction oracle as [|[sample latency] rest IH]; intros w Hw.
  - split; reflexivity.
  - cbn [loop]. one_iteration.
    destruct (StopQueue.check_stop (stopQueue w)) as [stop q].
    destruct stop; cbn [clock stopQueue powerList0 trace].
    + count_events. split; lia.
    + destruct (sensor (clock w + jitter sample) <? min_distance) eqn:Hd.
      * apply Z.ltb_lt in Hd. apply Hnear in Hd. lia.
      * match goal with |- context [loop sensor rest ?w'] =>
          destruct (IH w') as [Hr Ha]; [cbn [clock]; lia|] end.
        rewrite Hr, Ha. cbn [trace]. count_events. rewrite Hd.
        cbn [length]. split; lia.
Qed.

(** Reversals and alarms go together, and an interval shorter than the
    cool-down gives at most one of each. *)
Lemma loop_debounced (s len : N) (oracle : list (N * N)) :
  near_only_within sensor s len ->
  (len < reverse_timout)%N ->
  forall w : World,
    exists n : nat,
      (n <= 1)%nat /\
      length (reversals (trace (loop sensor oracle w))) = (length (reversals (trace w)) + n)%nat /\
      length (alarms (trace (loop sensor oracle w))) = (length (alarms (trace w)) + n)%nat.
Proof.
  intros Hnear Hlen. induction oracle as [|[sample latency] rest IH]; intros w.
  - exists 0%nat. cbn [loop]. repeat split; lia.
  - cbn [loop]. one_iteration.
    destruct (StopQueue.check_stop (stopQueue w)) as [stop q].
    destruct stop; cbn [clock stopQueue powerList0 trace].
    + exists 0%nat. count_events. repeat split; lia.
    + destruct (sensor (clock w + jitter sample) <? min_distance) eqn:Hd.
      * exists 1%nat. split; [lia|].
        pose proof Hd as Hin. apply Z.ltb_lt in Hin. apply Hnear in Hin.
        match goal with |- context [loop sensor rest ?w'] =>
          destruct (loop_quiet s len rest Hnear w') as [Hr Ha];
            [cbn [clock]; lia|] end.
        rewrite Hr, Ha. cbn [trace]. count_events. rewrite Hd.
        cbn [length]. split; lia.
      * match goal with |- context [loop sensor rest ?w'] =>
          destruct (IH w') as (n & Hn & Hr & Ha) end.
        exists n. split; [exact Hn|].
        rewrite Hr, Ha. cbn [trace]. count_events. rewrite Hd.
        cbn [length]. split; lia.
Qed.

(** C7: an iteration that measures less than [min_distance] changes the
    sign of [powerList[0]], asks the motor for one turn of 180 degrees
    at the new power and then sleeps for [reverse_timout]; and when the
    sensor reports less than [min_distance] only during an interval
    shorter than [reverse_timout], a run of the loop asks for as many
    reversals as it measured alarms, and for at most one: exactly one
    when an iteration measured the short distance. *)
Theorem reversal_debounced :
  (forall (sample latency c : N) (p : Z) (tr : list Ev),
     sensor (c + jitter sample) < min_distance ->
     loop sensor [(sample, latency)] (mkWorld c [] p tr)
     = mkWorld (c + jitter sample + latency + reverse_timout) [] (p * -1)
         (tr ++ [Slept (jitter sample);
                 Measured (c + jitter sample) (sensor (c + jitter sample));
                 Applied (Req_turn (p * -1) 180);
                 Slept reverse_timout])) /\
  (forall (s len : N) (oracle : list (N * N)) (c : N)
          (sq : StopQueue.queue) (p : Z),
     near_only_within sensor s len ->
     (len < reverse_timout)%N ->
     let tr := trace (loop sensor oracle (mkWorld c sq p [])) in
     length (reversals tr) = length (alarms tr) /\
     (length (reversals tr) <= 1)%nat /\
     (alarms tr <> [] -> length (reversals tr) = 1%nat)).
Proof.
  split.
  - intros sample latency c p tr Hd. cbn [loop]. one_iteration.
    unfold StopQueue.check_stop; cbn.
    apply Z.ltb_lt in Hd. rewrite Hd.
    repeat rewrite <- app_assoc. reflexivity.
  - intros s len oracle c sq p Hnear Hlen tr.
    destruct (loop_debounced s len oracle Hnear Hlen (mkWorld c sq p []))
      as (n & Hn & Hr & Ha).
    cbn in Hr, Ha. fold tr in Hr, Ha.
    split; [lia|]. split; [lia|].
    intros Hne. destruct (alarms tr); [congruence|]. cbn in Ha. lia.
Qed.

End Sensor.

Lemma reversal_debounced_witness :
  loop (Scenarios.wall_for 1500) [(500, 30)%N] (mkWorld 0 [] 100 [])
  = mkWorld 2130 [] (-100)
      [Slept 100; Measured 100 10; Applied (Req_turn (-100) 180); Slept 2000] /\
  length (reversals (trace (loop (Scenarios.wall_for 1500)
            [(500, 30); (900, 30); (100, 30)]%N (mkWorld 0 [] 100 [])))) = 1%nat.
Proof.
  destruct (reversal_debounced (Scenarios.wall_for 1500)) as [Hiter Hdeb].
  split.
  - apply (Hiter 500%N 30%N 0%N 100 []). vm_compute. reflexivity.
  - apply (Hdeb 0%N 1500%N).
    + intros t. unfold Scenarios.wall_for, min_distance.
      destruct (t <? 1500)%N eqn:Ht; [apply N.ltb_lt in Ht; lia | lia].
    + vm_compute. reflexivity.
    + vm_compute. discriminate.
Defined.

End UltrasonicClaims.

(* ------------------------------------------------------------------ *)
(** ** Facts about the interleaved runs *)

Module ThreadsFacts.
Import Device Threads.

Lemma request_eqb_refl (r : Request) : request_eqb r r = true.
Proof.
  destruct r; simpl; rewrite ?Z.eqb_refl; reflexivity.
Qed.

Lemma phase_after_snoc (h : list Event) (ev : Event) :
  phase_after (h ++ [ev]) = track (phase_after h) ev.
Proof. unfold phase_after. now rewrite fold_left_app. Qed.

Lemma puts_snoc (h : list Event) (ev : Event) :
  puts (h ++ [ev])
  = puts h ++ match ev with EvPut _ r => [r] | _ => [] end.
Proof. unfold puts. rewrite omap_app. now destruct ev. Qed.

Lemma begun_snoc (h : list Event) (ev : Event) :
  begun (h ++ [ev])
  = begun h ++ match ev with EvBegin r => [r] | _ => [] end.
Proof. unfold begun. rewrite omap_app. now destruct ev. Qed.

Section AnyDriver.
Context {HW : Type} `{MotorDriver HW}.

Lemma consistent_init (w : World HW) (sq : StopQueue.queue) (rs : list Request) :
  consistent (init w sq rs).
Proof. split; reflexivity. Qed.

Lemma consistent_step (t : Tid) (s : State HW) :
  consistent s -> consistent (step t s).
Proof.
  intros [Hph Hq]. destruct t as [|i|]; simpl.
  - unfold consumer_step. destruct (consumer s) eqn:Hc.
    + destruct (StopQueue.check_stop (stopQueue s)) as [stop q].
      split; simpl; [|exact Hq]. rewrite Hph. now destruct stop.
    + destruct (workRequestQueue s) as [|r rest] eqn:Hw; split; simpl.
      * exact Hph.
      * exact Hq.
      * rewrite phase_after_snoc, Hph. reflexivity.
      * rewrite begun_snoc, puts_snoc, Hq, app_nil_r, <- app_assoc. reflexivity.
    + destruct (call r (world s)) as [tc w|e w]; split; simpl.
      * rewrite phase_after_snoc, Hph. simpl. now rewrite request_eqb_refl.
      * now rewrite begun_snoc, puts_snoc, !app_nil_r.
      * rewrite phase_after_snoc, Hph. simpl. now rewrite request_eqb_refl.
      * now rewrite begun_snoc, puts_snoc, !app_nil_r.
    + split; rewrite ?Hc; assumption.
    + split; rewrite ?Hc; assumption.
  - unfold caller_step. destruct (callers s !! i) as [[r|r|r tc]|] eqn:Hi.
    + split; simpl.
      * rewrite phase_after_snoc, Hph. now destruct (consumer s).
      * now rewrite begun_snoc, puts_snoc, Hq, app_nil_r, app_assoc.
    + destruct (resultQueue s) as [|tc rest]; [split; assumption|].
      split; simpl.
      * rewrite phase_after_snoc, Hph. now destruct (consumer s).
      * now rewrite begun_snoc, puts_snoc, !app_nil_r.
    + split; assumption.
    + split; assumption.
  - split; assumption.
Qed.

Lemma consistent_run (sched : list Tid) (s : State HW) :
  consistent s -> consistent (run_sched sched s).
Proof.
  revert s. induction sched as [|t sched IH]; intros s Hs; [exact Hs|].
  simpl. apply IH, consistent_step, Hs.
Qed.

Lemma frozen_refl (s : State HW) : frozen s s.
Proof.
  repeat split; try reflexivity.
  - exists []. now rewrite app_nil_r.
  - now exists [].
Qed.

Lemma frozen_trans (s1 s2 s3 : State HW) :
  frozen s1 s2 -> frozen s2 s3 -> frozen s1 s3.
Proof.
  intros (Hc & Hw & Hb & [k Hk] & [j Hj]) (Hc' & Hw' & Hb' & [k' Hk'] & [j' Hj']).
  repeat split; try congruence.
  - exists (k ++ k'). now rewrite Hk', Hk, app_assoc.
  - exists (j ++ j'). now rewrite Hj, Hj', app_assoc.
Qed.

Lemma gone_step (t : Tid) (s : State HW) :
  gone s -> frozen s (step t s).
Proof.
  intros Hg. destruct t as [|i|]; simpl.
  - unfold consumer_step.
    destruct Hg as [-> | [e ->]]; apply frozen_refl.
  - unfold caller_step. destruct (callers s !! i) as [[r|r|r tc]|] eqn:Hi;
      try apply frozen_refl.
    + repeat split; simpl; try reflexivity.
      * now rewrite begun_snoc, app_nil_r.
      * now exists [r].
      * now exists [].
    + destruct (resultQueue s) as [|tc rest] eqn:Hr; [apply frozen_refl|].
      repeat split; simpl; try reflexivity.
      * now rewrite begun_snoc, app_nil_r.
      * exists []. now rewrite app_nil_r.
      * rewrite Hr. now exists [tc].
  - repeat split; simpl; try reflexivity.
    + exists []. now rewrite app_nil_r.
    + now exists [].
Qed.

Lemma gone_frozen (s s' : State HW) : gone s -> frozen s s' -> gone s'.
Proof.
  intros Hg (Hc & _). unfold gone. now rewrite Hc.
Qed.

Lemma gone_run (sched : list Tid) (s : State HW) :
  gone s -> frozen s (run_sched sched s).
Proof.
  revert s. induction sched as [|t sched IH]; intros s Hg; [apply frozen_refl|].
  simpl. pose proof (gone_step t s Hg) as Hst.
  eapply frozen_trans; [exact Hst|].
  apply IH. eapply gone_frozen; eassumption.
Qed.

(** With the consumer gone and nothing on the result queue, no call of
    [apply] returns. *)
Lemma starved_step (t : Tid) (s : State HW) :
  gone s -> resultQueue s = [] ->
  resultQueue (step t s) = [] /\
  forall i, returned (callers (step t s) !! i) = returned (callers s !! i).
Proof.
  intros Hg Hr. destruct t as [|j|]; simpl.
  - unfold consumer_step. destruct Hg as [-> | [e ->]]; auto.
  - unfold caller_step. destruct (callers s !! j) as [[r|r|r tc]|] eqn:Hj; auto.
    + split; [exact Hr|]. simpl. intros i.
      destruct (decide (i = j)) as [->|Hne].
      * rewrite list_lookup_insert_eq by (eapply lookup_lt_Some; eassumption).
        now rewrite Hj.
      * now rewrite list_lookup_insert_ne by congruence.
    + rewrite Hr. auto.
  - auto.
Qed.

Lemma starved_run (sched : list Tid) (s : State HW) :
  gone s -> resultQueue s = [] ->
  resultQueue (run_sched sched s) = [] /\
  forall i, returned (callers (run_sched sched s) !! i) = returned (callers s !! i).
Proof.
  revert s. induction sched as [|t sched IH]; intros s Hg Hr; [auto|].
  simpl. destruct (starved_step t s Hg Hr) as [Hr1 Hc1].
  destruct (IH (step t s)) as [Hr2 Hc2].
  - eapply gone_frozen; [exact Hg|]. apply gone_step, Hg.
  - exact Hr1.
  - split; [exact Hr2|]. intros i. now rewrite Hc2, Hc1.
Qed.

End AnyDriver.

End ThreadsFacts.

(* ------------------------------------------------------------------ *)
(** ** Facts about the readings put and taken *)

Module ReadingsFacts.
Import Device Threads ThreadsFacts Readings.

Lemma ends_snoc (h : list Event) (ev : Event) :
  ends (h ++ [ev]) = ends h ++ match ev with EvEnd _ t => [t] | _ => [] end.
Proof. unfold ends. rewrite omap_app. now destruct ev. Qed.

Lemma gots_snoc (h : list Event) (ev : Event) :
  gots (h ++ [ev]) = gots h ++ match ev with EvGot _ t => [t] | _ => [] end.
Proof. unfold gots. rewrite omap_app. now destruct ev. Qed.

Lemma outcomes_snoc (h : list Event) (ev : Event) :
  outcomes (h ++ [ev])
  = outcomes h ++ match ev with EvEnd _ _ | EvRaise _ _ => [ev] | _ => [] end.
Proof. unfold outcomes. rewrite List.filter_app. now destruct ev. Qed.

Section AnyDriver.
Context {HW : Type} `{MotorDriver HW}.

(** With the consumer gone nothing is put on the result queue any
    more, and what the callers take is what they find there. *)
Lemma gone_takes_step (t : Tid) (s : State HW) :
  gone s ->
  ends (history (step t s)) = ends (history s) /\
  exists k, resultQueue s = k ++ resultQueue (step t s) /\
            gots (history (step t s)) = gots (history s) ++ k.
Proof.
  intros Hg. destruct t as [|i|]; simpl.
  - unfold consumer_step. destruct Hg as [-> | [e ->]];
      (split; [reflexivity|]); exists []; (split; [reflexivity|now rewrite app_nil_r]).
  - unfold caller_step. destruct (callers s !! i) as [[r|r|r tc]|];
      try ((split; [reflexivity|]); exists []; (split; [reflexivity|now rewrite app_nil_r])).
    + simpl. rewrite ends_snoc, gots_snoc, !app_nil_r.
      split; [reflexivity|]. exists []. split; [reflexivity|now rewrite app_nil_r].
    + destruct (resultQueue s) as [|tc rest] eqn:Hr.
      * rewrite ?Hr. split; [reflexivity|]. exists []. split; [reflexivity|now rewrite app_nil_r].
      * simpl. rewrite ends_snoc, gots_snoc, app_nil_r.
        split; [reflexivity|]. now exists [tc].
  - split; [reflexivity|]. exists []. split; [reflexivity|now rewrite app_nil_r].
Qed.

Lemma gone_takes_run (sched : list Tid) (s : State HW) :
  gone s ->
  ends (history (run_sched sched s)) = ends (history s) /\
  exists k, resultQueue s = k ++ resultQueue (run_sched sched s) /\
            gots (history (run_sched sched s)) = gots (history s) ++ k.
Proof.
  revert s. induction sched as [|t sched IH]; intros s Hg.
  - split; [reflexivity|]. exists []. simpl. split; [reflexivity|now rewrite app_nil_r].
  - simpl. destruct (gone_takes_step t s Hg) as (He & k & Hk & Hgot).
    destruct (IH (step t s)) as (He' & k' & Hk' & Hgot').
    { eapply gone_frozen; [exact Hg|]. apply gone_step, Hg. }
    split; [congruence|]. exists (k ++ k').
    rewrite Hk, Hk', Hgot', Hgot, !app_assoc. split; reflexivity.
Qed.

End AnyDriver.

End ReadingsFacts.

(* ------------------------------------------------------------------ *)
(** ** Claims about [apply] and the consumer loop *)

Module ThreadsClaims.
Import Device Sim Threads ThreadsFacts Readings ReadingsFacts Scenarios.

Lemma request_eqb_eq (a b : Request) : request_eqb a b = true -> a = b.
Proof.
  destruct a, b; simpl; try discriminate; try reflexivity.
  - intros Hp. apply Z.eqb_eq in Hp. now subst.
  - intros Hpd. apply andb_true_iff in Hpd as [Hp Hd].
    apply Z.eqb_eq in Hp, Hd. now subst.
Qed.

Lemma track_none (h : list Event) : fold_left track h None = None.
Proof. induction h as [|ev h IH]; [reflexivity|exact IH]. Qed.

Lemma track_halted (h : list Event) (ph : Phase) :
  fold_left track h (Some Halted) = Some ph -> ph = Halted.
Proof.
  induction h as [|ev h IH]; simpl; [congruence|].
  destruct ev; simpl; try exact IH; rewrite track_none; discriminate.
Qed.

(** From inside the execution of [r], the history gets back to idle
    only through the end of that execution. *)
Lemma track_busy_idle (r : Request) (h : list Event) :
  fold_left track h (Some (Busy r)) = Some Idle -> exists t, EvEnd r t ∈ h.
Proof.
  induction h as [|ev h IH]; simpl; [discriminate|].
  destruct ev as [i r0|r0|r0 t|r0 e|i t]; simpl.
  - intros Hf. destruct (IH Hf) as [t Ht]. exists t. now right.
  - rewrite track_none. discriminate.
  - destruct (request_eqb r r0) eqn:Hr.
    + apply request_eqb_eq in Hr. subst r0. intros _. exists t. left.
    + rewrite track_none. discriminate.
  - destruct (request_eqb r r0) eqn:Hr.
    + intros Hf. apply track_halted in Hf. discriminate.
    + rewrite track_none. discriminate.
  - intros Hf. destruct (IH Hf) as [t' Ht]. exists t'. now right.
Qed.

(** What [no_overlap] says: between the beginnings of two executions
    lies the end of the first. *)
Lemma no_overlap_between (h1 h2 h3 : list Event) (r r' : Request) :
  no_overlap (h1 ++ EvBegin r :: h2 ++ EvBegin r' :: h3) = true ->
  exists t, EvEnd r t ∈ h2.
Proof.
  unfold no_overlap, phase_after.
  rewrite fold_left_app. simpl. rewrite fold_left_app. simpl.
  destruct (fold_left track h1 (Some Idle)) as [[| |]|]; simpl;
    rewrite ?track_none; try discriminate.
  destruct (fold_left track h2 (Some (Busy r))) as [[| |]|] eqn:Hmid; simpl;
    rewrite ?track_none; try discriminate.
  intros _. apply track_busy_idle, Hmid.
Qed.

(** C1 fails on the code: two threads call [apply] on one motor, thread
    0 with [motor_start] and thread 1 with [motor_stop]; thread 1 takes
    from the shared result queue the reading [motor_start] returned,
    before its own request has been run, and thread 0 gets the reading
    of [motor_stop]. *)
Theorem apply_result_goes_to_other_caller :
  let s := run_sched swap_schedule two_callers in
  history s =
    [EvPut 0 (Req_start 100); EvPut 1 Req_stop;
     EvBegin (Req_start 100); EvEnd (Req_start 100) (mkTacho 0 0 0);
     EvGot 1 (mkTacho 0 0 0);
     EvBegin Req_stop; EvEnd Req_stop (mkTacho 100 100 100);
     EvGot 0 (mkTacho 100 100 100)] /\
  callers s =
    [Got (Req_start 100) (mkTacho 100 100 100); Got Req_stop (mkTacho 0 0 0)].
Proof. split; reflexivity. Qed.

(** C3, as stated, fails: the consumer has fetched a [motor_start]
    during which the driver raises, with a [motor_stop] queued behind
    it; the exception ends the consumer, nothing is ever put on the
    result queue, the caller never returns from [apply], and the queued
    request is never begun. *)
Lemma failure_not_delivered_loop_not_resumed :
  consumer faulty_start = Running (Req_start 100) /\
  workRequestQueue faulty_start = [Req_stop] /\
  callers faulty_start = [Waiting (Req_start 100); Waiting Req_stop] /\
  forall sched : list Tid,
    let s := run_sched (TConsumer :: sched) faulty_start in
    consumer s = Died sim_error /\
    resultQueue s = [] /\
    returned (callers s !! 0%nat) = false /\
    begun (history s) = [Req_start 100].
Proof.
  split; [reflexivity|]. split; [reflexivity|]. split; [reflexivity|].
  intros sched s. subst s. cbn [run_sched fold_left].
  change (fold_left _ sched ?x) with (run_sched sched x).
  set (s1 := step TConsumer faulty_start).
  assert (Hg : gone s1) by (right; exists sim_error; reflexivity).
  destruct (gone_run sched s1 Hg) as (Hc & _ & Hb & _ & _).
  destruct (starved_run sched s1 Hg eq_refl) as [Hr Hi].
  rewrite Hc, Hb, Hr, Hi. repeat split; reflexivity.
Qed.

(** C8, as stated, fails: the consumer has seen the token and left its
    loop; a thread that calls [apply] afterwards never gets a result,
    whatever the other threads do. *)
Lemma late_apply_hangs :
  consumer after_shutdown = Exited /\
  callers after_shutdown = [Calling Req_stop] /\
  ~ exists sched : list Tid,
      returned (callers (run_sched sched after_shutdown) !! 0%nat) = true.
Proof.
  split; [reflexivity|]. split; [reflexivity|].
  intros [sched Hret].
  assert (Hg : gone after_shutdown) by (left; reflexivity).
  destruct (starved_run sched after_shutdown Hg eq_refl) as [_ Hi].
  rewrite Hi in Hret. discriminate.
Qed.

Section AnyDriver.
Context {HW : Type} `{MotorDriver HW}.

(** C2: in every interleaving of the callers, the consumer and the
    shutdown, no execution of a request begins while another one is
    open (between the beginnings of two executions lies the end of the
    first), and executions begin in the order the requests were put: the
    requests put are those begun, in that order, followed by those still
    queued. *)
Theorem executions_serial_and_fifo
    (w : World HW) (sq : StopQueue.queue) (rs : list Request) (sched : list Tid) :
  let s := run_sched sched (init w sq rs) in
  no_overlap (history s) = true /\
  puts (history s) = begun (history s) ++ workRequestQueue s /\
  (forall h1 h2 h3 r r',
     history s = h1 ++ EvBegin r :: h2 ++ EvBegin r' :: h3 ->
     exists t, EvEnd r t ∈ h2).
Proof.
  intros s.
  destruct (consistent_run sched (init w sq rs) (consistent_init w sq rs))
    as [Hph Hq].
  fold s in Hph, Hq.
  assert (Hno : no_overlap (history s) = true).
  { unfold no_overlap. now rewrite Hph. }
  split; [exact Hno|]. split; [exact Hq|].
  intros h1 h2 h3 r r' Hh. rewrite Hh in Hno.
  eapply no_overlap_between, Hno.
Qed.

(** C3, amended: when the call of a fetched request raises, the
    exception leaves [run]: the consumer thread is over and nothing is
    put on the result queue, neither then nor later; from then on,
    whatever the other threads do, no request is begun and the work
    queue only grows; the readings callers take from [apply] afterwards
    are readings that were already on the result queue, in queue order;
    and with an empty result queue no caller returns from [apply]. *)
Theorem failed_command_ends_consumer
    (s : State HW) (r : Request) (e : exn) (w' : World HW) :
  consumer s = Running r ->
  call r (world s) = Raised e w' ->
  let s1 := step TConsumer s in
  consumer s1 = Died e /\
  resultQueue s1 = resultQueue s /\
  workRequestQueue s1 = workRequestQueue s /\
  history s1 = history s ++ [EvRaise r e] /\
  forall sched : list Tid,
    let s2 := run_sched sched s1 in
    consumer s2 = Died e /\
    begun (history s2) = begun (history s) /\
    ends (history s2) = ends (history s) /\
    (exists k, workRequestQueue s2 = workRequestQueue s ++ k) /\
    (exists k, resultQueue s = k ++ resultQueue s2 /\
               gots (history s2) = gots (history s) ++ k) /\
    (resultQueue s = [] ->
     resultQueue s2 = [] /\
     forall i, returned (callers s2 !! i) = returned (callers s !! i)).
Proof.
  intros Hc Hcall s1.
  assert (Hs1 : s1 = mkState w' (stopQueue s) (workRequestQueue s) (resultQueue s)
                       (Died e) (callers s) (history s ++ [EvRaise r e])).
  { subst s1. simpl. unfold consumer_step. now rewrite Hc, Hcall. }
  rewrite Hs1. cbn [consumer resultQueue workRequestQueue history].
  repeat (split; [reflexivity|]).
  intros sched. rewrite <- Hs1. set (s2 := run_sched sched s1).
  assert (Hg : gone s1) by (right; exists e; now rewrite Hs1).
  destruct (gone_run sched s1 Hg) as (Hc2 & _ & Hb & Hk & _).
  destruct (gone_takes_run sched s1 Hg) as (He & Hj).
  fold s2 in Hc2, Hb, Hk, He, Hj.
  rewrite Hs1 in Hc2, Hb, Hk, He, Hj.
  cbn [consumer resultQueue workRequestQueue history] in Hc2, Hb, Hk, He, Hj.
  rewrite begun_snoc, app_nil_r in Hb.
  rewrite ends_snoc, app_nil_r in He.
  rewrite gots_snoc, app_nil_r in Hj.
  repeat (split; [assumption|]).
  intros Hr.
  assert (Hr1 : resultQueue s1 = []) by now rewrite Hs1.
  destruct (starved_run sched s1 Hg Hr1) as [Hr2 Hi].
  fold s2 in Hr2, Hi. split; [exact Hr2|].
  intros i. rewrite Hi, Hs1. reflexivity.
Qed.

(** C8, amended: once the consumer has left its loop, a call of
    [apply] puts its request on the work queue and waits on the result
    queue; no request is begun any more, and with an empty result queue
    nothing ever arrives there and no caller returns from [apply]. *)
Theorem late_apply_never_returns (s : State HW) (sched : list Tid) (i : nat) :
  consumer s = Exited ->
  resultQueue s = [] ->
  let s' := run_sched sched s in
  consumer s' = Exited /\
  begun (history s') = begun (history s) /\
  resultQueue s' = [] /\
  returned (callers s' !! i) = returned (callers s !! i).
Proof.
  intros Hc Hr s'.
  assert (Hg : gone s) by now left.
  destruct (gone_run sched s Hg) as (Hc' & _ & Hb & _ & _).
  destruct (starved_run sched s Hg Hr) as [Hr' Hi].
  fold s' in Hc', Hb, Hr', Hi.
  rewrite Hc', Hc. auto.
Qed.

End AnyDriver.

Lemma executions_serial_and_fifo_witness :
  exists t,
    EvEnd (Req_start 100) t ∈ [EvEnd (Req_start 100) (mkTacho 0 0 0);
                               EvGot 1 (mkTacho 0 0 0)].
Proof.
  destruct (executions_serial_and_fifo (world0 false []) []
              [Req_start 100; Req_stop] swap_schedule) as (_ & _ & Hbetween).
  apply (Hbetween [EvPut 0 (Req_start 100); EvPut 1 Req_stop]
                  [EvEnd (Req_start 100) (mkTacho 0 0 0); EvGot 1 (mkTacho 0 0 0)]
                  [EvEnd Req_stop (mkTacho 100 100 100); EvGot 0 (mkTacho 100 100 100)]
                  (Req_start 100) Req_stop).
  reflexivity.
Defined.

Lemma failed_command_ends_consumer_witness :
  consumer (step TConsumer faulty_start) = Died sim_error.
Proof.
  assert (Hcall : call (Req_start 100) (world faulty_start)
                  = Raised sim_error
                      (mkWorld false 100 (mkSim 0 0 [true]) [OpGetTacho; OpRun 100]))
    by reflexivity.
  destruct (failed_command_ends_consumer faulty_start (Req_start 100) sim_error _
              eq_refl Hcall) as (Hdied & _).
  exact Hdied.
Defined.

Lemma late_apply_never_returns_witness :
  returned (callers (run_sched [TCaller 0%nat; TCaller 0%nat; TConsumer]
                       after_shutdown) !! 0%nat) = false.
Proof.
  destruct (late_apply_never_returns after_shutdown
              [TCaller 0%nat; TCaller 0%nat; TConsumer] 0%nat eq_refl eq_refl)
    as (_ & _ & _ & Hret).
  rewrite Hret. reflexivity.
Defined.

End ThreadsClaims.

(* ------------------------------------------------------------------ *)
(** ** More about the stop queue and the loops that watch queues *)

Module QueueLoops.
Import StopQueue StopQueueFacts.

Lemma tokens_app (a b : queue) :
  SensorBase.tokens (a ++ b) = (SensorBase.tokens a + SensorBase.tokens b)%nat.
Proof. unfold SensorBase.tokens. now rewrite List.filter_app, length_app. Qed.

Lemma tokens_check_stop (q : queue) :
  SensorBase.tokens (snd (check_stop q)) = SensorBase.tokens q.
Proof.
  destruct q as [|[|v] q]; unfold check_stop, put; simpl; try reflexivity.
  rewrite tokens_app. unfold SensorBase.tokens. simpl. lia.
Qed.

Lemma base_run_polls (n : nat) (q : queue) :
  snd (SensorBase.run n q) = polls n q \/
  exists m, (m < n)%nat /\ SensorBase.run n q = (true, polls (S m) q).
Proof.
  revert q. induction n as [|n IH]; intros q; simpl; [now left|].
  destruct (check_stop q) as [stop q'] eqn:Hq. destruct stop.
  - right. exists 0%nat. split; [lia|]. cbn [polls]. rewrite ?Hq. reflexivity.
  - destruct (IH q') as [Hl | (m & Hm & Hr)].
    + left. rewrite Hl. cbn [polls]. rewrite ?Hq. reflexivity.
    + right. exists (S m). split; [lia|]. rewrite Hr. cbn [polls]. rewrite ?Hq.
      reflexivity.
Qed.

Lemma tokens_polls (n : nat) (q : queue) :
  SensorBase.tokens (polls n q) = SensorBase.tokens q.
Proof.
  revert q. induction n as [|n IH]; intros q; simpl; [reflexivity|].
  now rewrite IH, tokens_check_stop.
Qed.

(** X1: polling never loses the stop token and never multiplies it:
    after any number of calls of [check_stop], and after any run of
    [SensorThreadBase.run], the queue holds as many tokens as before. *)
Theorem polling_keeps_token_count (n : nat) (q : queue) :
  SensorBase.tokens (polls n q) = SensorBase.tokens q /\
  SensorBase.tokens (snd (SensorBase.run n q)) = SensorBase.tokens q.
Proof.
  split; [apply tokens_polls|].
  destruct (base_run_polls n q) as [-> | (m & _ & ->)]; apply tokens_polls.
Qed.

Lemma polls_others (vs : list Z) (n : nat) :
  polls n (map other vs) = map other (drop n vs).
Proof.
  revert vs. induction n as [|n IH]; intros vs; simpl.
  - now rewrite drop_0.
  - destruct vs as [|v vs]; simpl.
    + pose proof (IH []) as E. simpl in E. rewrite E. now destruct n.
    + apply IH.
Qed.

(** X2: while no token has been put, no stop is ever reported: on a
    queue of other objects every call of [check_stop] returns [False]
    and takes one object off, and [SensorThreadBase.run] keeps
    looping. *)
Theorem no_token_no_stop (vs : list Z) (n : nat) :
  nth_poll n (map other vs) = false /\
  polls n (map other vs) = map other (drop n vs) /\
  SensorBase.run n (map other vs) = (false, map other (drop n vs)).
Proof.
  split; [|split].
  - unfold nth_poll. rewrite polls_others. now destruct (drop n vs).
  - apply polls_others.
  - revert vs. induction n as [|n IH]; intros vs; simpl.
    + now rewrite drop_0.
    + destruct vs as [|v vs]; simpl.
      * pose proof (IH []) as E. simpl in E. rewrite E. now destruct n.
      * apply IH.
Qed.

Lemma base_run_skips (vs : list Z) (q : queue) :
  forall n, SensorBase.run (length vs + n) (map other vs ++ q) = SensorBase.run n q.
Proof.
  induction vs as [|v vs IH]; intros n; simpl; [reflexivity|]. apply IH.
Qed.

(** X3: [SensorThreadBase.run] ends by [break] exactly at the
    iteration that finds the token at the front: with [k] other objects
    queued ahead of it the loop is still running after [k] iterations,
    having discarded them, and ends at iteration [k + 1] with the token
    put back behind what was queued after it. *)
Theorem base_loop_ends_at_token (vs1 vs2 : list Z) (rest : queue) (k : nat) :
  SensorBase.run (length vs1) (map other (vs1 ++ vs2) ++ stop_token :: rest)
  = (false, map other vs2 ++ stop_token :: rest) /\
  SensorBase.run (length vs1 + S k) (map other vs1 ++ stop_token :: rest)
  = (true, rest ++ [stop_token]).
Proof.
  split.
  - rewrite map_app, <- app_assoc.
    rewrite <- (Nat.add_0_r (length vs1)) at 1. now rewrite base_run_skips.
  - now rewrite base_run_skips.
Qed.

Section Results.
Context {A : Type}.

(** X4: [ResultQueueChecker.run] loses and reorders nothing: the
    results logged so far followed by those still queued are always the
    ones there were; and with nothing on the stop queue it logs a queue
    of [n] results in [n] iterations, in queue order. *)
Theorem checker_logs_in_order (fuel : nat) (w : ResultChecker.World A) :
  (let w' := snd (ResultChecker.run fuel w) in
   ResultChecker.fetched w' ++ ResultChecker.resQueue w'
   = ResultChecker.fetched w ++ ResultChecker.resQueue w) /\
  (forall (rq : list A) (k : nat),
     ResultChecker.run (length rq + k) (ResultChecker.mkWorld [] rq [])
     = (false, ResultChecker.mkWorld [] [] rq)).
Proof.
  split.
  - revert w. induction fuel as [|fuel IH]; intros [sq rq done]; simpl; [reflexivity|].
    destruct sq as [|[|v] sq]; simpl.
    + rewrite IH. destruct rq; simpl; [reflexivity|]. now rewrite <- app_assoc.
    + reflexivity.
    + rewrite IH. destruct rq; simpl; [reflexivity|]. now rewrite <- app_assoc.
  - intros rq k.
    assert (Hgen : forall done,
              ResultChecker.run (length rq + k) (ResultChecker.mkWorld [] rq done)
              = (false, ResultChecker.mkWorld [] [] (done ++ rq))).
    { induction rq as [|r rq IH]; intros done; simpl.
      - rewrite app_nil_r. induction k as [|k IHk]; simpl; [reflexivity|exact IHk].
      - unfold ResultChecker.fetch; simpl. rewrite IH. now rewrite <- app_assoc. }
    apply (Hgen []).
Qed.

(** X5: the results play no part in how [ResultQueueChecker.run]
    ends: whether it has left its loop, and the stop queue it leaves,
    are those of [SensorThreadBase.run] on the same stop queue. *)
Theorem checker_stops_like_base_loop (fuel : nat) (w : ResultChecker.World A) :
  (fst (ResultChecker.run fuel w),
   ResultChecker.stopQueue (snd (ResultChecker.run fuel w)))
  = SensorBase.run fuel (ResultChecker.stopQueue w).
Proof.
  revert w. induction fuel as [|fuel IH]; intros [sq rq done]; simpl; [reflexivity|].
  destruct sq as [|[|v] sq]; simpl.
  - rewrite IH. now destruct rq.
  - reflexivity.
  - rewrite IH. now destruct rq.
Qed.

End Results.

End QueueLoops.

(* ------------------------------------------------------------------ *)
(** ** More about the callables *)

Module CallableExtras.
Import Device.

Section AnyDriver.
Context {HW : Type} `{MotorDriver HW}.

Ltac run_call :=
  unfold call, motor_start, motor_stop, motor_turn, bind, ret, get_tacho,
    Motor_run, brake, idle, turn, driver_call, read_power, read_brake_flag,
    log_op, set_hw;
  simpl.

Ltac two_ops := rewrite <- app_assoc; simpl.

Ltac settle :=
  split;
  [ intros Heq; try discriminate; injection Heq as <- <-; eauto 10
  | intros Hor;
    repeat match goal with
           | Hx : _ \/ _ |- _ => destruct Hx
           | Hx : _ /\ _ |- _ => destruct Hx
           | Hx : exists _, _ |- _ => destruct Hx
           end;
    subst; congruence ].

(** X6: whatever the request and however its call ends, the call
    leaves [motor.brake_flag] and [MotorRunThread.power[0]] as they
    were, and adds one or two driver calls to those made before. *)
Theorem callables_only_drive (r : Request) (w : World HW) :
  let w' := world_of (call r w) in
  brake_flag w' = brake_flag w /\
  power0 w' = power0 w /\
  exists ops, oplog w' = oplog w ++ ops /\ (1 <= length ops <= 2)%nat.
Proof.
  destruct w as [bf p0 h ol]. destruct r as [p| |p d]; run_call.
  - destruct (drv_get_tacho h) as [e|[t h1]]; simpl.
    + repeat split. exists [OpGetTacho]. split; [reflexivity|simpl; lia].
    + destruct (drv_run p0 h1) as [e|h2]; simpl; two_ops; repeat split;
        exists [OpGetTacho; OpRun p0]; (split; [reflexivity|simpl; lia]).
  - destruct bf; simpl.
    + destruct (drv_brake h) as [e|h1]; simpl.
      * repeat split. exists [OpBrake]. split; [reflexivity|simpl; lia].
      * destruct (drv_get_tacho h1) as [e|[t h2]]; simpl; two_ops; repeat split;
          exists [OpBrake; OpGetTacho]; (split; [reflexivity|simpl; lia]).
    + destruct (drv_idle h) as [e|h1]; simpl.
      * repeat split. exists [OpIdle]. split; [reflexivity|simpl; lia].
      * destruct (drv_get_tacho h1) as [e|[t h2]]; simpl; two_ops; repeat split;
          exists [OpIdle; OpGetTacho]; (split; [reflexivity|simpl; lia]).
  - destruct (drv_turn p d h) as [e|h1]; simpl.
    + repeat split. exists [OpTurn p d]. split; [reflexivity|simpl; lia].
    + destruct (drv_get_tacho h1) as [e|[t h2]]; simpl; two_ops; repeat split;
        exists [OpTurn p d; OpGetTacho]; (split; [reflexivity|simpl; lia]).
Qed.

(** X7: a callable stops at the first driver call that raises and
    passes the exception on: [motor_start] raises either because the
    tacho read raised, and then no run call is made and the hardware is
    as it was, or because the run call raised; [motor_stop] and
    [motor_turn] raise either because the brake, idle or turn call
    raised, and then no tacho read is made, or because the tacho read
    after it raised. *)
Theorem callables_abort_on_first_failure (w : World HW) (e : exn) (w' : World HW) :
  (forall p,
     motor_start p w = Raised e w' <->
     (drv_get_tacho (hw w) = inl e /\
      w' = mkWorld (brake_flag w) (power0 w) (hw w) (oplog w ++ [OpGetTacho])) \/
     (exists t h1,
        drv_get_tacho (hw w) = inr (t, h1) /\
        drv_run (power0 w) h1 = inl e /\
        w' = mkWorld (brake_flag w) (power0 w) h1
               (oplog w ++ [OpGetTacho; OpRun (power0 w)]))) /\
  (motor_stop w = Raised e w' <->
   ((if brake_flag w then drv_brake else drv_idle) (hw w) = inl e /\
    w' = mkWorld (brake_flag w) (power0 w) (hw w)
           (oplog w ++ [if brake_flag w then OpBrake else OpIdle])) \/
   (exists h1,
      (if brake_flag w then drv_brake else drv_idle) (hw w) = inr h1 /\
      drv_get_tacho h1 = inl e /\
      w' = mkWorld (brake_flag w) (power0 w) h1
             (oplog w ++ [if brake_flag w then OpBrake else OpIdle; OpGetTacho]))) /\
  (forall p d,
     motor_turn p d w = Raised e w' <->
     (drv_turn p d (hw w) = inl e /\
      w' = mkWorld (brake_flag w) (power0 w) (hw w) (oplog w ++ [OpTurn p d])) \/
     (exists h1,
        drv_turn p d (hw w) = inr h1 /\
        drv_get_tacho h1 = inl e /\
        w' = mkWorld (brake_flag w) (power0 w) h1
               (oplog w ++ [OpTurn p d; OpGetTacho]))).
Proof.
  destruct w as [bf p0 h ol]; simpl.
  split; [|split].
  - intros p. run_call.
    destruct (drv_get_tacho h) as [e1|[t1 h1]] eqn:Ht; simpl.
    + settle.
    + destruct (drv_run p0 h1) as [e2|h2] eqn:Hr; simpl; two_ops; settle.
  - run_call. destruct bf; simpl.
    + destruct (drv_brake h) as [e1|h1] eqn:Hb; simpl.
      * settle.
      * destruct (drv_get_tacho h1) as [e2|[t2 h2]] eqn:Ht; simpl; two_ops;
          settle.
    + destruct (drv_idle h) as [e1|h1] eqn:Hb; simpl.
      * settle.
      * destruct (drv_get_tacho h1) as [e2|[t2 h2]] eqn:Ht; simpl; two_ops;
          settle.
  - intros p d. run_call.
    destruct (drv_turn p d h) as [e1|h1] eqn:Hb; simpl.
    + settle.
    + destruct (drv_get_tacho h1) as [e2|[t2 h2]] eqn:Ht; simpl; two_ops;
        settle.
Qed.

End AnyDriver.

End CallableExtras.

(* ------------------------------------------------------------------ *)
(** ** More about [apply] and the consumer loop *)

Module ThreadsExtras.
Import Device Sim Threads ThreadsFacts Readings ReadingsFacts Scenarios.

Section AnyDriver.
Context {HW : Type} `{MotorDriver HW}.

Lemma results_step (t : Tid) (s : State HW) :
  ends (history s) = gots (history s) ++ resultQueue s ->
  ends (history (step t s)) = gots (history (step t s)) ++ resultQueue (step t s).
Proof.
  intros Hs. destruct t as [|i|]; simpl; [| |exact Hs].
  - unfold consumer_step. destruct (consumer s); try exact Hs.
    + now destruct (StopQueue.check_stop (stopQueue s)) as [[] q].
    + destruct (workRequestQueue s); simpl; [exact Hs|].
      now rewrite ends_snoc, gots_snoc, !app_nil_r.
    + destruct (call r (world s)); simpl.
      * now rewrite ends_snoc, gots_snoc, app_nil_r, Hs, app_assoc.
      * now rewrite ends_snoc, gots_snoc, !app_nil_r.
  - unfold caller_step. destruct (callers s !! i) as [[r|r|r tc]|]; try exact Hs.
    + simpl. now rewrite ends_snoc, gots_snoc, !app_nil_r.
    + destruct (resultQueue s) as [|tc rest] eqn:Hr; [now rewrite Hr|].
      simpl. now rewrite ends_snoc, gots_snoc, app_nil_r, Hs, <- app_assoc.
Qed.

(** X8: no reading is lost, doubled or overtaken on the result queue:
    in every interleaving the readings the consumer has put are the
    ones the callers have taken, in the same order, followed by the
    ones still queued. *)
Theorem results_handed_out_in_order
    (w : World HW) (sq : StopQueue.queue) (rs : list Request) (sched : list Tid) :
  let s := run_sched sched (init w sq rs) in
  ends (history s) = gots (history s) ++ resultQueue s.
Proof.
  simpl.
  assert (Hgen : forall s : State HW,
            ends (history s) = gots (history s) ++ resultQueue s ->
            ends (history (run_sched sched s))
            = gots (history (run_sched sched s)) ++ resultQueue (run_sched sched s)).
  { induction sched as [|t sched IH]; intros s Hs; [exact Hs|].
    simpl. apply IH, results_step, Hs. }
  apply Hgen. reflexivity.
Qed.







Lemma token_queue_step (t : Tid) (s : State HW) :
  StopQueue.only_tokens (stopQueue s) -> stopQueue s <> [] ->
  StopQueue.only_tokens (stopQueue (step t s)) /\ stopQueue (step t s) <> [] /\
  (steps_left (consumer (step t s))
   <= steps_left (consumer s) - match t with TConsumer => 1 | _ => 0 end)%nat.
Proof.
  intros Hq Hne. destruct t as [|i|]; simpl.
  - unfold consumer_step. destruct (consumer s) eqn:Hc; rewrite ?Hc; simpl;
      try (repeat split; (assumption || lia)).
    + rewrite StopQueueFacts.check_stop_only_tokens by assumption. simpl.
      repeat split; (assumption || lia).
    + destruct (workRequestQueue s); simpl; repeat split; (assumption || lia).
    + destruct (call r (world s)); simpl; repeat split; (assumption || lia).
  - unfold caller_step. destruct (callers s !! i) as [[r|r|r tc]|]; simpl;
      try (repeat split; (assumption || lia)).
    destruct (resultQueue s); simpl; repeat split; (assumption || lia).
  - unfold StopQueue.put. repeat split.
    + apply Forall_app. split; [exact Hq|]. repeat constructor.
    + now destruct (stopQueue s).
    + lia.
Qed.

End AnyDriver.


End ThreadsExtras.

(* ------------------------------------------------------------------ *)
(** ** More about the sensor loops *)

Module SensorLoops.
Import Device Shapes.

Lemma edges_alternate (p : Z) (rs : list bool) :
  forall b : bool, alternates (negb b) (Touch.edges p b rs) = true.
Proof.
  induction rs as [|x rs IH]; intros b; simpl; [reflexivity|].
  destruct b, x; simpl; first [exact (IH true) | exact (IH false)].
Qed.

(** Whatever ends it, the loop has gone through some of the readings
    and asked for what their changes call for. *)
Lemma touch_loop_prefix (fuel : nat) :
  forall (b : bool) (w : Touch.World),
    exists n : nat,
      Touch.applied (Touch.loop fuel b w)
      = Touch.applied w ++ Touch.edges (Touch.power0 w) b (take n (Touch.readings w)).
Proof.
  induction fuel as [|fuel IH]; intros b [rs sq p acc]; simpl.
  - exists 0%nat. now rewrite app_nil_r.
  - unfold Touch.check_stop; simpl.
    destruct (StopQueue.check_stop sq) as [[] q]; simpl.
    + exists 0%nat. now rewrite app_nil_r.
    + destruct b; simpl; unfold Touch.is_pressed; simpl;
        (destruct rs as [|[] rs]; simpl;
         [ exists 0%nat; now rewrite app_nil_r | | ]).
      * destruct (IH true (Touch.mkWorld rs q p acc)) as [n Hn].
        exists (S n). exact Hn.
      * destruct (IH false (Touch.apply Req_stop (Touch.mkWorld rs q p acc))) as [n Hn].
        exists (S n). rewrite Hn. simpl. now rewrite <- app_assoc.
      * destruct (IH true (Touch.apply (Req_start p) (Touch.mkWorld rs q p acc)))
          as [n Hn].
        exists (S n). rewrite Hn. simpl. now rewrite <- app_assoc.
      * destruct (IH false (Touch.mkWorld rs q p acc)) as [n Hn].
        exists (S n). exact Hn.
Qed.

(** X12: the touch loop never asks the motor for two starts in a row
    nor for two stops in a row, whatever the readings, the stop queue
    and the number of iterations: its requests are starts and stops
    taking turns, the first one a start exactly when the button was up
    at the initial read. *)
Theorem touch_requests_alternate
    (fuel : nat) (b : bool) (rs : list bool) (sq : StopQueue.queue) (p : Z) :
  alternates (negb b)
    (Touch.applied (Touch.run fuel (Touch.mkWorld (b :: rs) sq p []))) = true.
Proof.
  unfold Touch.run, Touch.is_pressed. simpl.
  destruct (touch_loop_prefix fuel b (Touch.mkWorld rs sq p [])) as [n Hn].
  rewrite Hn. simpl. apply edges_alternate.
Qed.

Lemma touch_loop_until_token (rs2 : list bool) (rest : StopQueue.queue) (p : Z) (k : nat)
    (vs : list Z) :
  forall (rs1 : list bool) (b : bool) (acc : list Request),
    length rs1 = length vs ->
    Touch.loop (length vs + S k) b
      (Touch.mkWorld (rs1 ++ rs2)
         (map StopQueue.other vs ++ StopQueue.stop_token :: rest) p acc)
    = Touch.mkWorld rs2 (rest ++ [StopQueue.stop_token]) p
        (acc ++ Touch.edges p b rs1).
Proof.
  induction vs as [|v vs IH]; intros rs1 b acc Hlen.
  - destruct rs1; [|discriminate]. simpl. now rewrite app_nil_r.
  - destruct rs1 as [|x rs1]; [discriminate|]. injection Hlen as Hlen.
    destruct b, x; simpl; unfold Touch.apply; simpl; rewrite IH by exact Hlen;
      try reflexivity; now rewrite <- app_assoc.
Qed.

(** X13: the touch loop stops at the iteration that finds the token at
    the front of the stop queue: with [k] other objects queued ahead of
    it the loop does [k] full iterations, asking for what the changes
    among their [k] readings call for, then puts the token back and
    ends without reading the sensor again. *)
Theorem touch_loop_stops_at_token
    (vs : list Z) (rest : StopQueue.queue) (b : bool) (rs1 rs2 : list bool)
    (p : Z) (k : nat) :
  length rs1 = length vs ->
  Touch.run (length vs + S k)
    (Touch.mkWorld (b :: rs1 ++ rs2)
       (map StopQueue.other vs ++ StopQueue.stop_token :: rest) p [])
  = Touch.mkWorld rs2 (rest ++ [StopQueue.stop_token]) p (Touch.edges p b rs1).
Proof.
  intros Hlen. unfold Touch.run, Touch.is_pressed.
  cbn [Touch.readings Touch.stopQueue Touch.power0 Touch.applied].
  now rewrite touch_loop_until_token.
Qed.

Lemma touch_loop_stops_at_token_witness :
  Touch.run 3
    (Touch.mkWorld [false; true; false; true]
       [StopQueue.other 5; StopQueue.stop_token] 100 [])
  = Touch.mkWorld [false; true] [StopQueue.stop_token] 100 [Req_start 100].
Proof.
  apply (touch_loop_stops_at_token [5] [] false [true] [false; true] 100 1).
  reflexivity.
Defined.

Lemma applied_requests_snoc (tr : list Ultrasonic.Ev) (ev : Ultrasonic.Ev) :
  applied_requests (tr ++ [ev])
  = applied_requests tr ++ match ev with Ultrasonic.Applied r => [r] | _ => [] end.
Proof. unfold applied_requests. rewrite omap_app. now destruct ev. Qed.

Lemma alarm_times_snoc (tr : list Ultrasonic.Ev) (ev : Ultrasonic.Ev) :
  alarm_times (tr ++ [ev]) = alarm_times tr ++ alarm_times [ev].
Proof. unfold alarm_times. now rewrite omap_app. Qed.

Lemma minus_one_pow (n : nat) : (-1) ^ Z.of_nat n = 1 \/ (-1) ^ Z.of_nat n = -1.
Proof.
  induction n as [|n IH]; [now left|].
  rewrite Nat2Z.inj_succ, Z.pow_succ_r by lia. lia.
Qed.

Ltac one_iteration :=
  unfold Ultrasonic.sleep, Ultrasonic.check_stop, Ultrasonic.get_distance,
    Ultrasonic.flip, Ultrasonic.apply;
  cbn [Ultrasonic.clock Ultrasonic.stopQueue Ultrasonic.powerList0 Ultrasonic.trace].

Section Sensor.
Variable sensor : N -> Z.

Lemma ultrasonic_loop_flips (oracle : list (N * N)) :
  forall w : Ultrasonic.World,
    exists n : nat,
      applied_requests (Ultrasonic.trace (Ultrasonic.loop sensor oracle w))
      = applied_requests (Ultrasonic.trace w) ++ flips (Ultrasonic.powerList0 w) n /\
      Ultrasonic.powerList0 (Ultrasonic.loop sensor oracle w)
      = Ultrasonic.powerList0 w * (-1) ^ Z.of_nat n.
Proof.
  induction oracle as [|[sample latency] rest IH]; intros w.
  - exists 0%nat. simpl. rewrite app_nil_r. split; [reflexivity|lia].
  - cbn [Ultrasonic.loop]. one_iteration.
    destruct (StopQueue.check_stop (Ultrasonic.stopQueue w)) as [[] q];
      cbn [Ultrasonic.clock Ultrasonic.stopQueue Ultrasonic.powerList0 Ultrasonic.trace].
    + exists 0%nat. rewrite applied_requests_snoc. simpl. rewrite !app_nil_r.
      split; [reflexivity|lia].
    + destruct (sensor (Ultrasonic.clock w + Ultrasonic.jitter sample)
                <? Ultrasonic.min_distance).
      * match goal with |- context [Ultrasonic.loop sensor rest ?w'] =>
          destruct (IH w') as (n & Hreq & Hpow) end.
        exists (S n). rewrite Hreq, Hpow.
        cbn [Ultrasonic.trace Ultrasonic.powerList0].
        rewrite !applied_requests_snoc, !app_nil_r, <- app_assoc. simpl.
        split; [reflexivity|].
        rewrite Nat2Z.inj_succ, Z.pow_succ_r by lia. ring.
      * match goal with |- context [Ultrasonic.loop sensor rest ?w'] =>
          destruct (IH w') as (n & Hreq & Hpow) end.
        exists n. rewrite Hreq, Hpow.
        cbn [Ultrasonic.trace Ultrasonic.powerList0].
        rewrite !applied_requests_snoc, !app_nil_r. split; reflexivity.
Qed.

(** X14: all the ultrasonic loop ever asks for are turns of 180
    degrees at powers that change sign from one to the next, starting
    opposite to the power it found; [powerList[0]] keeps its magnitude
    and ends with the sign of the last turn asked for. *)
Theorem reversals_alternate_power
    (oracle : list (N * N)) (c : N) (sq : StopQueue.queue) (p : Z) :
  let w' := Ultrasonic.loop sensor oracle (Ultrasonic.mkWorld c sq p []) in
  exists n : nat,
    applied_requests (Ultrasonic.trace w') = flips p n /\
    Ultrasonic.powerList0 w' = p * (-1) ^ Z.of_nat n /\
    Z.abs (Ultrasonic.powerList0 w') = Z.abs p.
Proof.
  intros w'.
  destruct (ultrasonic_loop_flips oracle (Ultrasonic.mkWorld c sq p []))
    as (n & Hreq & Hpow).
  fold w' in Hreq, Hpow. simpl in Hreq, Hpow.
  exists n. split; [exact Hreq|]. split; [exact Hpow|].
  rewrite Hpow. destruct (minus_one_pow n) as [-> | ->]; lia.
Qed.

Lemma spaced_cons (gap t : N) (ts : list N) :
  spaced gap ts -> Forall (fun t' => (t + gap <= t')%N) ts -> spaced gap (t :: ts).
Proof.
  intros Hs Hall. simpl. split; [|exact Hs].
  destruct ts as [|t2 ts]; [exact I|]. now inversion Hall.
Qed.

Lemma ultrasonic_loop_alarms (oracle : list (N * N)) :
  forall w : Ultrasonic.World,
    exists ts : list N,
      alarm_times (Ultrasonic.trace (Ultrasonic.loop sensor oracle w))
      = alarm_times (Ultrasonic.trace w) ++ ts /\
      spaced Ultrasonic.reverse_timout ts /\
      Forall (fun t => (Ultrasonic.clock w <= t)%N) ts.
Proof.
  induction oracle as [|[sample latency] rest IH]; intros w.
  - exists []. simpl. rewrite app_nil_r. repeat split. constructor.
  - cbn [Ultrasonic.loop]. one_iteration.
    destruct (StopQueue.check_stop (Ultrasonic.stopQueue w)) as [[] q];
      cbn [Ultrasonic.clock Ultrasonic.stopQueue Ultrasonic.powerList0 Ultrasonic.trace].
    + exists []. rewrite alarm_times_snoc. simpl. rewrite !app_nil_r.
      repeat split. constructor.
    + destruct (sensor (Ultrasonic.clock w + Ultrasonic.jitter sample)
                <? Ultrasonic.min_distance) eqn:Hd.
      * match goal with |- context [Ultrasonic.loop sensor rest ?w'] =>
          destruct (IH w') as (ts & Htimes & Hsp & Hall) end.
        cbn [Ultrasonic.trace Ultrasonic.clock] in Htimes, Hall.
        exists ((Ultrasonic.clock w + Ultrasonic.jitter sample)%N :: ts).
        rewrite Htimes. rewrite !alarm_times_snoc. simpl. rewrite Hd. simpl.
        rewrite !app_nil_r, <- app_assoc. simpl.
        split; [reflexivity|]. split.
        -- apply spaced_cons; [exact Hsp|].
           eapply List.Forall_impl; [|exact Hall]. simpl. intros t Ht. lia.
        -- constructor; [lia|].
           eapply List.Forall_impl; [|exact Hall]. simpl. intros t Ht. lia.
      * match goal with |- context [Ultrasonic.loop sensor rest ?w'] =>
          destruct (IH w') as (ts & Htimes & Hsp & Hall) end.
        cbn [Ultrasonic.trace Ultrasonic.clock] in Htimes, Hall.
        exists ts. rewrite Htimes. rewrite !alarm_times_snoc. simpl. rewrite Hd.
        simpl. rewrite !app_nil_r.
        split; [reflexivity|]. split; [exact Hsp|].
        eapply List.Forall_impl; [|exact Hall]. simpl. intros t Ht. lia.
Qed.

(** X15: whatever the sensor reports, two successive measurements
    that set off a reversal are at least [reverse_timout] apart. *)
Theorem alarms_are_spaced
    (oracle : list (N * N)) (c : N) (sq : StopQueue.queue) (p : Z) :
  spaced Ultrasonic.reverse_timout
    (alarm_times
       (Ultrasonic.trace (Ultrasonic.loop sensor oracle (Ultrasonic.mkWorld c sq p [])))).
Proof.
  destruct (ultrasonic_loop_alarms oracle (Ultrasonic.mkWorld c sq p []))
    as (ts & Htimes & Hsp & _).
  rewrite Htimes. exact Hsp.
Qed.

End Sensor.

End SensorLoops.

(* ------------------------------------------------------------------ *)
(** ** The consumer among loops that poll the stop queue and flip the power *)

Module SharedExtras.
Import Device Sim Threads ThreadsFacts Readings ReadingsFacts Shared.

Section AnyDriver.
Context {HW : Type} `{MotorDriver HW}.

Lemma with_power_same (w : World HW) : with_power (power0 w) w = w.
Proof. now destruct w. Qed.

Lemma call_keeps_power (r : Request) (w : World HW) :
  power0 (world_of (call r w)) = power0 w.
Proof.
  destruct w as [bf p0 h ol].
  destruct r as [p| |p d];
    unfold call, motor_start, motor_stop, motor_turn, bind, ret, get_tacho,
      Motor_run, brake, Device.idle, turn, driver_call, read_power,
      read_brake_flag, log_op, set_hw; simpl.
  - destruct (drv_get_tacho h) as [e|[t h1]]; simpl; [reflexivity|].
    now destruct (drv_run p0 h1).
  - destruct bf; simpl.
    + destruct (drv_brake h) as [e|h1]; simpl; [reflexivity|].
      now destruct (drv_get_tacho h1) as [e|[t h2]].
    + destruct (drv_idle h) as [e|h1]; simpl; [reflexivity|].
      now destruct (drv_get_tacho h1) as [e|[t h2]].
  - destruct (drv_turn p d h) as [e|h1]; simpl; [reflexivity|].
    now destruct (drv_get_tacho h1) as [e|[t h2]].
Qed.

Lemma replay_snoc (done : list (Z * Request)) (p : Z) (r : Request) :
  forall (w w1 : World HW) (evs : list Event),
    replay w done = (evs, w1, true) ->
    replay w (done ++ [(p, r)])
    = match call r (with_power p w1) with
      | Returned t w2 => (evs ++ [EvEnd r t], w2, true)
      | Raised e w2 => (evs ++ [EvRaise r e], w2, false)
      end.
Proof.
  induction done as [|[p0 r0] done IH]; intros w w1 evs; simpl.
  - intros [= <- <-]. now destruct (call r (with_power p w)).
  - destruct (call r0 (with_power p0 w)) as [t0 w0|e0 w0]; [|discriminate].
    destruct (replay w0 done) as [[evs0 w0'] ok] eqn:Hrep.
    intros [= <- <- ->].
    rewrite (IH w0 w0' evs0 Hrep). now destruct (call r (with_power p w0')).
Qed.

Lemma replayed_consumer (w : World HW) (s : State HW) :
  replayed w s -> replayed w (consumer_step s).
Proof.
  intros (done & wr & Hb & Hall & Habs & Hrep & Hw).
  unfold consumer_step. destruct (consumer s) eqn:Hc.
  - destruct (StopQueue.check_stop (stopQueue s)) as [[] q];
      exists done, wr; repeat split; assumption.
  - destruct (workRequestQueue s) as [|r rest]; exists done, wr; simpl.
    + repeat split; assumption.
    + rewrite begun_snoc, outcomes_snoc, Hb, !app_nil_r. repeat split; assumption.
  - simpl in Hrep.
    remember (power0 (world s)) as p eqn:Hp.
    pose proof (replay_snoc done p r w wr _ Hrep) as Hsn.
    pose proof (call_keeps_power r (with_power p wr)) as Hkeep.
    rewrite Hw.
    destruct (call r (with_power p wr)) as [tc w2|e w2]; simpl in Hkeep;
      exists (done ++ [(p, r)]), w2; simpl;
      rewrite begun_snoc, outcomes_snoc, Hb, !app_nil_r, map_app, Hkeep;
      (repeat split;
       [ apply Forall_app; split; [exact Hall | repeat constructor; exact Habs]
       | exact Habs
       | exact Hsn
       | now rewrite <- Hkeep, with_power_same ]).
  - exists done, wr. rewrite Hc. repeat split; assumption.
  - exists done, wr. rewrite Hc. repeat split; assumption.
Qed.

Lemma replayed_caller (w : World HW) (i : nat) (s : State HW) :
  replayed w s -> replayed w (caller_step i s).
Proof.
  intros (done & wr & Hb & Hall & Habs & Hrep & Hw).
  unfold caller_step. destruct (callers s !! i) as [[r|r|r tc]|];
    try (exists done, wr; repeat split; assumption).
  - exists done, wr. simpl. rewrite begun_snoc, outcomes_snoc, !app_nil_r.
    repeat split; assumption.
  - destruct (resultQueue s); [exists done, wr; repeat split; assumption|].
    exists done, wr. simpl. rewrite begun_snoc, outcomes_snoc, !app_nil_r.
    repeat split; assumption.
Qed.

Lemma replayed_xstep (w : World HW) (t : XTid) (x : XState HW) :
  replayed w (base x) -> replayed w (base (xstep t x)).
Proof.
  intros Hx. destruct t as [[|i|]| |i|i]; simpl.
  - apply replayed_consumer, Hx.
  - apply replayed_caller, Hx.
  - destruct Hx as (done & wr & Hb & Hall & Habs & Hrep & Hw).
    exists done, wr. repeat split; assumption.
  - destruct Hx as (done & wr & Hb & Hall & Habs & Hrep & Hw).
    exists done, wr. simpl. repeat split; try assumption.
    + lia.
    + rewrite Hw. reflexivity.
  - destruct (pollers x !! i) as [[|got|]|]; try exact Hx.
    destruct (StopQueue.check_stop_get (stopQueue (base x))) as [got q].
    destruct Hx as (done & wr & Hb & Hall & Habs & Hrep & Hw).
    exists done, wr. repeat split; assumption.
  - destruct (pollers x !! i) as [[|got|]|]; try exact Hx.
    destruct (StopQueue.check_stop_rest got (stopQueue (base x))) as [stop q].
    destruct Hx as (done & wr & Hb & Hall & Habs & Hrep & Hw).
    exists done, wr. repeat split; assumption.
Qed.

Lemma consistent_xstep (t : XTid) (x : XState HW) :
  consistent (base x) -> consistent (base (xstep t x)).
Proof.
  intros Hx. destruct t as [t'| |i|i]; simpl.
  - apply consistent_step, Hx.
  - exact Hx.
  - destruct (pollers x !! i) as [[|got|]|]; try exact Hx.
    now destruct (StopQueue.check_stop_get (stopQueue (base x))).
  - destruct (pollers x !! i) as [[|got|]|]; try exact Hx.
    now destruct (StopQueue.check_stop_rest got (stopQueue (base x))).
Qed.

Lemma invariants_xrun (w : World HW) (sched : list XTid) (x : XState HW) :
  replayed w (base x) -> consistent (base x) ->
  replayed w (base (xrun sched x)) /\ consistent (base (xrun sched x)).
Proof.
  revert x. induction sched as [|t sched IH]; intros x Hr Hc; [now split|].
  simpl. apply IH; [apply replayed_xstep, Hr | apply consistent_xstep, Hc].
Qed.

(** X9: however the callers, the consumer, the shutdown, the loops
    polling the stop queue and the changes of sign of
    [MotorRunThread.power[0]] are interleaved, the motor sees what one
    thread calling requests one after the other would make it see: the
    requests whose execution is over are the first ones put, in the
    order of the puts, and the readings and exceptions in the history,
    the hardware, the driver calls made and whether the consumer is
    still alive are those of calling them in a row from the initial
    world, each at a power that is the initial one up to its sign. *)
Theorem shared_run_is_sequential
    (w : World HW) (sq : StopQueue.queue) (rs : list Request) (m : nat)
    (sched : list XTid) :
  let s := base (xrun sched (xinit w sq rs m)) in
  exists (done : list (Z * Request)) (wr : World HW),
    map snd done = finished s /\
    Forall (fun pr => Z.abs (fst pr) = Z.abs (power0 w)) done /\
    replay w done = (outcomes (history s), wr, alive (consumer s)) /\
    world s = with_power (power0 (world s)) wr /\
    Z.abs (power0 (world s)) = Z.abs (power0 w) /\
    exists later, puts (history s) = finished s ++ later.
Proof.
  intros s.
  assert (Hinit : replayed w (base (xinit w sq rs m))).
  { exists [], w. simpl. repeat split; try reflexivity; try constructor.
    now destruct w. }
  destruct (invariants_xrun w sched _ Hinit (consistent_init w sq rs))
    as [(done & wr & Hb & Hall & Habs & Hrep & Hw) [_ Hq]].
  fold s in Hb, Habs, Hrep, Hw, Hq.
  assert (Hfin : finished s = map snd done).
  { unfold finished. rewrite Hb. destruct (consumer s);
      rewrite ?app_nil_r, ?removelast_last; reflexivity. }
  exists done, wr. rewrite Hfin. repeat split; try assumption.
  rewrite Hq, Hb, <- app_assoc. eauto.
Qed.

Lemma token_queue_xstep (t : XTid) (x : XState HW) :
  StopQueue.only_tokens (stopQueue (base x)) -> stopQueue (base x) <> [] ->
  polls_begun [t] = 0%nat ->
  StopQueue.only_tokens (stopQueue (base (xstep t x))) /\
  stopQueue (base (xstep t x)) <> [] /\
  (steps_left (consumer (base (xstep t x)))
   <= steps_left (consumer (base x)) - consumer_turns [t])%nat.
Proof.
  intros Hq Hne Hp. destruct t as [t'| |i|i]; simpl.
  - destruct (ThreadsExtras.token_queue_step t' (base x) Hq Hne) as (Hq' & Hne' & Hdec).
    repeat split; try assumption. unfold consumer_turns.
    destruct t'; simpl in *; lia.
  - repeat split; (assumption || (unfold consumer_turns; simpl; lia)).
  - discriminate.
  - unfold consumer_turns; simpl.
    destruct (pollers x !! i) as [[|got|]|];
      try (repeat split; (assumption || lia)).
    destruct got as [[|v]|]; simpl; try (repeat split; (assumption || lia)).
    unfold StopQueue.put. repeat split.
    + apply Forall_app. split; [exact Hq|]. repeat constructor.
    + now destruct (stopQueue (base x)).
    + lia.
Qed.

(** X11: once the stop queue holds the token and nothing else, and as
    long as no other loop begins a stop check (a loop that is between
    its [get_nowait] and its put may finish, callers may call, the power
    may change sign, the token may be put again), the consumer is out of
    its loop after at most three of its own steps: one from the stop
    check, two when a call is under way (the call is completed first),
    three from the get. *)
Theorem consumer_leaves_when_unpolled (x : XState HW) (sched : list XTid) :
  StopQueue.only_tokens (stopQueue (base x)) ->
  stopQueue (base x) <> [] ->
  polls_begun sched = 0%nat ->
  (steps_left (consumer (base x)) <= consumer_turns sched)%nat ->
  gone (base (xrun sched x)) /\ (steps_left (consumer (base x)) <= 3)%nat.
Proof.
  intros Hq Hne Hp Hn. split; [|destruct (consumer (base x)); simpl; lia].
  revert x Hq Hne Hp Hn. induction sched as [|t sched IH]; intros x Hq Hne Hp Hn.
  - unfold consumer_turns in Hn. unfold gone. cbn [xrun fold_left].
    destruct (consumer (base x)); simpl in Hn; try lia; eauto.
  - simpl.
    assert (Hp1 : polls_begun [t] = 0%nat /\ polls_begun sched = 0%nat).
    { unfold polls_begun in *. simpl in *.
      destruct t as [t'| |i|i]; simpl in *; (split; [reflexivity|lia]) || lia. }
    destruct Hp1 as [Hpt Hps].
    destruct (token_queue_xstep t x Hq Hne Hpt) as (Hq' & Hne' & Hdec).
    apply IH; try assumption.
    unfold consumer_turns in *. simpl in *.
    destruct t as [[|i|]| |i|i]; simpl in *; lia.
Qed.

End AnyDriver.

Lemma consumer_leaves_when_unpolled_witness :
  gone (base (xrun [PollRest 0%nat; Flip; Base TConsumer; Base (TCaller 0%nat);
                    Base TConsumer]
                (mkX (mkState (world0 false []) [StopQueue.stop_token]
                        [] [] (Running Req_stop) [Waiting Req_stop]
                        [EvPut 0 Req_stop; EvBegin Req_stop])
                     [Holding (Some StopQueue.stop_token)]))).
Proof.
  apply consumer_leaves_when_unpolled.
  - repeat constructor.
  - discriminate.
  - reflexivity.
  - vm_compute. lia.
Defined.

(** Why no stop check may begin in between: the token is on the queue
    and the consumer is about to check; another loop takes the token
    first, the consumer finds the queue empty, goes on to the work queue
    and runs one more request before it sees the token. *)
Example poll_in_between_costs_a_round :
  let x0 := mkX (mkState (world0 false []) [StopQueue.stop_token]
                   [Req_stop] [] AtCheck [Waiting Req_stop] [EvPut 0 Req_stop])
                [Polling] in
  consumer (base (xrun [Base TConsumer] x0)) = Exited /\
  consumer (base (xrun [PollGet 0%nat; Base TConsumer; PollRest 0%nat;
                        Base TConsumer; Base TConsumer] x0)) = AtCheck /\
  begun (history (base (xrun [PollGet 0%nat; Base TConsumer; PollRest 0%nat;
                              Base TConsumer; Base TConsumer] x0))) = [Req_stop].
Proof. repeat split; reflexivity. Qed.

End SharedExtras.
